(** * The stop-word moderation bot (any.py): a shallow embedding

    The bot keeps, for every chat, a list of stop-words in a JSON file,
    deletes every text message that contains one of them, and remembers the
    messages it has seen in a process-wide set.  The handlers are [async]
    functions that read and write files and call the Telegram transport; here
    they are functions in a state monad over a [World] that holds the set of
    processed messages, the files, the answers of the environment (file
    system and transport) and the trace of what the handlers did.

    A [str] is the string of its UTF-8 bytes: [x in y] on two [str] is the
    substring test on their bytes.  [str.lower] is a parameter of the
    development (a [Variable] below), so that nothing proved here depends on
    which letters Unicode lower-cases; [lower_ascii] instantiates it to run
    the handlers on concrete inputs. *)

From stdpp Require Import base decidable option list strings pretty gmap fin_sets.
From Stdlib Require Import ZArith Ascii String Lia.

Open Scope Z_scope.
Open Scope string_scope.
Open Scope list_scope.

(** ** Strings *)

(** [needle in hay] on [str]: [needle] starts at some position of [hay]. *)
Fixpoint contains (needle hay : string) : bool :=
  String.prefix needle hay ||
  match hay with
  | EmptyString => false
  | String _ hay' => contains needle hay'
  end.

(** The relation [contains] decides. *)
Definition substring_of (needle hay : string) : Prop :=
  ∃ before after, hay = before +:+ needle +:+ after.

Definition lower_ascii_char (c : ascii) : ascii :=
  let n := N_of_ascii c in
  if ((65 <=? n) && (n <=? 90))%N then ascii_of_N (n + 32) else c.

(** [str.lower] on the letters A-Z; every other byte is kept. *)
Fixpoint lower_ascii (s : string) : string :=
  match s with
  | EmptyString => EmptyString
  | String c s' => String (lower_ascii_char c) (lower_ascii s')
  end.

(** ** The environment and the state *)

(** What [bot.get_chat_member] answers: a member with its [status] and its
    [can_delete_messages] attribute ([None] when the attribute is absent or
    [None]), or an exception. *)
Inductive member_result :=
  | Member (status : string) (can_delete_messages : option bool)
  | MemberError (e : string).

(** What [bot.delete_message] answers. *)
Inductive delete_result :=
  | Deleted
  | DeleteTelegramError (e : string)
  | DeleteOtherError (e : string).

(** How the next file operation goes: it succeeds, [open] raises (the file
    is left as it was), or the body of the [with] block raises (a file
    opened with ['w'] has been truncated by then). *)
Inductive io_result := IoOk | IoOpenError | IoBodyError.

(** What a stop-word file holds: a JSON object, with the list under its
    ['stopwords'] key when it has the key, or anything on which [json.load]
    or [data.get] raises.  [save_stopwords] is the only writer of these
    files and writes lists of strings, so the value under the key is one;
    [json.dump] followed by [json.load] gives back such a list as it was. *)
Inductive file_content :=
  | Document (stopwords : option (list string))
  | Malformed.

(** The second component of [check_bot_permissions]' result. *)
Inductive permission_message :=
  | NotAdministrator      (* "Бот не является администратором в этом чате" *)
  | NoDeleteRight         (* "У бота нет прав на удаление сообщений" *)
  | AllRights             (* "Бот имеет все необходимые права" *)
  | CheckError (e : string).

(** The texts passed to [update.message.reply_text]. *)
Inductive reply :=
  | ReplyNeedsRights (m : permission_message)   (* start, check_permissions *)
  | ReplyGreeting
  | ReplyHelp
  | ReplyGroupsOnly
  | ReplyReady (m : permission_message)
  | ReplyOnlyAdminsAdd
  | ReplyCannotAdd (m : permission_message)
  | ReplyUsageAdd
  | ReplyAlreadyPresent (word : string)
  | ReplyAdded (word : string)
  | ReplyOnlyAdminsRemove
  | ReplyUsageRemove
  | ReplyNotFound (word : string)
  | ReplyRemoved (word : string)
  | ReplyListEmpty
  | ReplyList (words : list string).

(** What a handler did, in the order it did it: the calls to the transport,
    the log lines written on entry to the store's functions and at the end
    of the two permission checks, and the [AttributeError] that ends a
    handler which asks for [reply_text] of a message the update does not
    have. *)
Inductive event :=
  | EvGetChatMember (chat_id user_id : Z)
  | EvIsAdmin (chat_id user_id : Z) (result : bool)
  | EvBotPermissions (chat_id : Z) (result : bool)
  | EvLoad (chat_id : Z)
  | EvSave (chat_id : Z) (stopwords : list string)
  | EvDelete (chat_id message_id : Z)
  | EvReply (chat_id : Z) (r : reply)
  | EvAttributeError.

Record World := mkWorld {
  processed_messages : gset string;
  files : gmap string file_content;
  io : list io_result;
  bot_id : Z;
  chat_member : Z → Z → member_result;
  delete_message : Z → Z → delete_result;
  trace : list event
}.

Record Message := mkMessage {
  message_id : Z;
  text : option string
}.

(** An update together with [context.args].  [message] is [update.message]:
    it is [None] on an update that is not a new message, such as an edited
    message, for which [effective_chat] and [effective_user] are still
    there. *)
Record Update := mkUpdate {
  chat_id : Z;
  chat_type : string;
  user_id : Z;
  message : option Message;
  args : list string
}.

(** The return points of [check_message], named after the log line written
    at each; [None] is the silent return on an update without text. *)
Inductive skip_reason :=
  | AlreadyProcessed
  | InsufficientBotCapability
  | EmptyStopwordList.

Inductive ModerationOutcome :=
  | Skipped (reason : skip_reason)
  | NoMatch
  | DeletedOnMatch (word : string)
  | DeleteFailed (word : string).

Definition MAX_CACHE_SIZE : nat := 1000.

Definition STOPWORDS_DIR : string := "stopwords".

(** ** The state monad *)

Definition M (A : Type) : Type := World → A * World.

Global Instance M_ret : MRet M := λ A x σ, (x, σ).
Global Instance M_bind : MBind M := λ A B f m σ,
  match m σ with (x, σ') => f x σ' end.

Definition get : M World := λ σ, (σ, σ).

(** The world with one component replaced. *)
Definition with_processed_messages (s : gset string) (σ : World) : World :=
  mkWorld s (files σ) (io σ) (bot_id σ) (chat_member σ) (delete_message σ) (trace σ).

Definition with_file (file_path : string) (c : file_content) (σ : World) : World :=
  mkWorld (processed_messages σ) (<[file_path := c]> (files σ)) (io σ)
    (bot_id σ) (chat_member σ) (delete_message σ) (trace σ).

Definition with_io (rest : list io_result) (σ : World) : World :=
  mkWorld (processed_messages σ) (files σ) rest (bot_id σ) (chat_member σ)
    (delete_message σ) (trace σ).

Definition log (evs : list event) (σ : World) : World :=
  mkWorld (processed_messages σ) (files σ) (io σ) (bot_id σ) (chat_member σ)
    (delete_message σ) (trace σ ++ evs).

Definition set_processed_messages (f : gset string → gset string) : M unit := λ σ,
  ((), with_processed_messages (f (processed_messages σ)) σ).

Definition write_file (file_path : string) (c : file_content) : M unit := λ σ,
  ((), with_file file_path c σ).

(** The outcome of the next file operation; an exhausted list means that
    no further operation fails. *)
Definition next_io : M io_result := λ σ,
  match io σ with
  | [] => (IoOk, σ)
  | r :: rest => (r, with_io rest σ)
  end.

Definition emit (e : event) : M unit := λ σ, ((), log [e] σ).

(** [update.message.reply_text(...)].  On an update without a message (an
    edited message: [main] asks for these updates as well, and a
    [CommandHandler] takes them) [update.message] is [None], and the
    attribute access raises [AttributeError] before anything is sent.  Every
    call of [reply_text] is the last statement of its path through a
    handler, so the handler ends with the exception, which the trace
    records. *)
Definition reply_text (update : Update) (r : reply) : M unit :=
  match message update with
  | Some _ => emit (EvReply (chat_id update) r)
  | None => emit EvAttributeError
  end.

Definition get_chat_member (chat user : Z) : M member_result :=
  emit (EvGetChatMember chat user);;
  σ ← get;
  mret (chat_member σ chat user).

(** ** The stop-word store *)

Definition get_stopwords_file (chat_id : Z) : string :=
  STOPWORDS_DIR +:+ "/stopwords_" +:+ pretty chat_id +:+ ".json".

(** [save_stopwords]: the try block opens the file for writing and dumps
    [{'stopwords': stopwords}] into it; every exception is logged and
    swallowed. *)
Definition save_stopwords (chat_id : Z) (stopwords : list string) : M unit :=
  let file_path := get_stopwords_file chat_id in
  emit (EvSave chat_id stopwords);;
  r ← next_io;
  match r with
  | IoOk => write_file file_path (Document (Some stopwords))
  | IoOpenError => mret ()
  | IoBodyError => write_file file_path Malformed
  end.

(** [load_stopwords]: [data.get('stopwords', [])] of the file when it
    exists, an empty list (after saving one) when it does not, and an empty
    list on every exception. *)
Definition load_stopwords (chat_id : Z) : M (list string) :=
  let file_path := get_stopwords_file chat_id in
  emit (EvLoad chat_id);;
  σ ← get;
  match files σ !! file_path with
  | Some content =>
      r ← next_io;
      match r, content with
      | IoOk, Document stopwords => mret (default [] stopwords)
      | _, _ => mret []
      end
  | None =>
      save_stopwords chat_id [];;
      mret []
  end.

(** [stopwords.remove(word)]: the first occurrence goes. *)
Fixpoint list_remove_first (word : string) (stopwords : list string) : list string :=
  match stopwords with
  | [] => []
  | w :: rest => if decide (w = word) then rest else w :: list_remove_first word rest
  end.

(** ** The permission checks *)

Definition is_admin (update : Update) : M bool :=
  let chat := chat_id update in
  let user := user_id update in
  if decide (chat_type update = "private") then
    emit (EvIsAdmin chat user true);;
    mret true
  else
    r ← get_chat_member chat user;
    match r with
    | Member status _ =>
        let is_admin_result := bool_decide (status ∈ ["creator"; "administrator"]) in
        emit (EvIsAdmin chat user is_admin_result);;
        mret is_admin_result
    | MemberError _ =>
        emit (EvIsAdmin chat user false);;
        mret false
    end.

Definition check_bot_permissions (chat : Z) : M (bool * permission_message) :=
  σ ← get;
  r ← get_chat_member chat (bot_id σ);
  match r with
  | Member status can_delete =>
      if negb (bool_decide (status ∈ ["administrator"; "creator"])) then
        emit (EvBotPermissions chat false);;
        mret (false, NotAdministrator)
      else if negb (default false can_delete) then
        emit (EvBotPermissions chat false);;
        mret (false, NoDeleteRight)
      else
        emit (EvBotPermissions chat true);;
        mret (true, AllRights)
  | MemberError e =>
      emit (EvBotPermissions chat false);;
      mret (false, CheckError e)
  end.

(** [safe_delete_message]: one call to [bot.delete_message]; its three
    except branches differ in what they log only. *)
Definition safe_delete_message (chat message_id : Z) : M bool :=
  emit (EvDelete chat message_id);;
  σ ← get;
  match delete_message σ chat message_id with
  | Deleted => mret true
  | DeleteTelegramError _ => mret false
  | DeleteOtherError _ => mret false
  end.

(** ** The cache of processed messages *)

Definition message_key (chat_id message_id : Z) : string :=
  pretty chat_id +:+ "_" +:+ pretty message_id.

(** Lines 305-311 of [check_message]: add the key, and when the set has
    grown past [MAX_CACHE_SIZE], clear it and add the key again. *)
Definition mark_processed (key : string) : M unit :=
  set_processed_messages (λ s, s ∪ {[key]});;
  σ ← get;
  if decide (MAX_CACHE_SIZE < size (processed_messages σ))%nat then
    set_processed_messages (λ _, ∅);;
    set_processed_messages (λ s, s ∪ {[key]})
  else mret ().

(** The policy in the words of the specification: when inserting would grow
    the set past the maximum, clear the whole set first, then insert the new
    key alone. *)
Definition insert_bounded_spec (key : string) (cache : gset string) : gset string :=
  if decide (key ∈ cache) then cache
  else if decide (MAX_CACHE_SIZE < size cache + 1)%nat then {[key]}
  else cache ∪ {[key]}.

(** ** The scan and the handlers

    [reply_text] is the request to send a reply; a reply that fails to be
    sent raises out of the handler, as does the [AttributeError] of an
    update without a message.  What the application does with an exception
    that leaves a handler (it calls [error_handler]) is not modelled.
    Neither is the half second [check_message] sleeps before it deletes a
    message. *)

(** The [for word in stopwords] loop of [check_message] up to its [break]:
    the first word, in the order of the list, that the text contains. *)
Fixpoint scan (stopwords : list string) (message_text_lower : string) : option string :=
  match stopwords with
  | [] => None
  | word :: rest =>
      if contains word message_text_lower then Some word
      else scan rest message_text_lower
  end.

Section Handlers.

(** [str.lower]. *)
Variable lower : string → string.

Definition check_message (update : Update) : M (option ModerationOutcome) :=
  match message update with
  | None => mret None
  | Some msg =>
    match text msg with
    | None => mret None
    | Some message_text =>
      if decide (message_text = "") then mret None
      else
        let chat := chat_id update in
        let key := message_key chat (message_id msg) in
        σ ← get;
        if decide (key ∈ processed_messages σ) then
          mret (Some (Skipped AlreadyProcessed))
        else
          mark_processed key;;
          '(has_permissions, _) ←
            (if decide (chat_type update ≠ "private")
             then check_bot_permissions chat
             else mret (true, AllRights));
          if negb has_permissions then
            mret (Some (Skipped InsufficientBotCapability))
          else
            stopwords ← load_stopwords chat;
            match stopwords with
            | [] => mret (Some (Skipped EmptyStopwordList))
            | _ :: _ =>
                match scan stopwords (lower message_text) with
                | Some word =>
                    success ← safe_delete_message chat (message_id msg);
                    mret (Some (if success : bool then DeletedOnMatch word
                                else DeleteFailed word))
                | None => mret (Some NoMatch)
                end
            end
    end
  end.

Definition add_word (update : Update) : M unit :=
  let chat := chat_id update in
  admin ← is_admin update;
  if negb admin then reply_text update ReplyOnlyAdminsAdd
  else
    '(has_permissions, message) ←
      (if decide (chat_type update ≠ "private")
       then check_bot_permissions chat
       else mret (true, AllRights));
    if negb has_permissions then reply_text update (ReplyCannotAdd message)
    else
      match args update with
      | [] => reply_text update ReplyUsageAdd
      | arg :: _ =>
          let word := lower arg in
          stopwords ← load_stopwords chat;
          if bool_decide (word ∈ stopwords) then
            reply_text update (ReplyAlreadyPresent word)
          else
            save_stopwords chat (stopwords ++ [word]);;
            reply_text update (ReplyAdded word)
      end.

Definition remove_word (update : Update) : M unit :=
  let chat := chat_id update in
  admin ← is_admin update;
  if negb admin then reply_text update ReplyOnlyAdminsRemove
  else
    match args update with
    | [] => reply_text update ReplyUsageRemove
    | arg :: _ =>
        let word := lower arg in
        stopwords ← load_stopwords chat;
        if negb (bool_decide (word ∈ stopwords)) then
          reply_text update (ReplyNotFound word)
        else
          save_stopwords chat (list_remove_first word stopwords);;
          reply_text update (ReplyRemoved word)
    end.

Definition list_words (update : Update) : M unit :=
  stopwords ← load_stopwords (chat_id update);
  match stopwords with
  | [] => reply_text update ReplyListEmpty
  | _ :: _ => reply_text update (ReplyList stopwords)
  end.

Definition start (update : Update) : M unit :=
  '(has_permissions, message) ←
    (if decide (chat_type update ≠ "private")
     then check_bot_permissions (chat_id update)
     else mret (true, AllRights));
  if negb has_permissions then reply_text update (ReplyNeedsRights message)
  else reply_text update ReplyGreeting.

Definition help_command (update : Update) : M unit :=
  reply_text update ReplyHelp.

Definition check_permissions (update : Update) : M unit :=
  if decide (chat_type update = "private") then
    reply_text update ReplyGroupsOnly
  else
    '(has_permissions, message) ← check_bot_permissions (chat_id update);
    if has_permissions : bool then reply_text update (ReplyReady message)
    else reply_text update (ReplyNeedsRights message).

(** The handlers [main] registers, by the command that selects each. *)
Inductive command :=
  | CmdStart | CmdHelp | CmdAddWord | CmdRemoveWord | CmdListWords
  | CmdCheckPermissions | TextMessage.

Definition handle (c : command) (update : Update) : M unit :=
  match c with
  | CmdStart => start update
  | CmdHelp => help_command update
  | CmdAddWord => add_word update
  | CmdRemoveWord => remove_word update
  | CmdListWords => list_words update
  | CmdCheckPermissions => check_permissions update
  | TextMessage => check_message update;; mret ()
  end.

End Handlers.

(** ** Reading traces *)

Definition is_delete (e : event) : bool :=
  match e with EvDelete _ _ => true | _ => false end.

Definition is_store_access (e : event) : bool :=
  match e with EvLoad _ | EvSave _ _ => true | _ => false end.


Definition is_capability_check (e : event) : bool :=
  match e with EvBotPermissions _ _ => true | _ => false end.


(** The delete requests of a trace, in order. *)
Definition deletes (tr : list event) : list event := List.filter is_delete tr.

(** The replies of a trace, in order. *)
Fixpoint replies (tr : list event) : list reply :=
  match tr with
  | [] => []
  | EvReply _ r :: tr' => r :: replies tr'
  | _ :: tr' => replies tr'
  end.

(** What a call of [reply_text] adds to the trace. *)
Definition reply_event (update : Update) (r : reply) : event :=
  match message update with
  | Some _ => EvReply (chat_id update) r
  | None => EvAttributeError
  end.

(** The replies a call of [reply_text] sends: the reply when the update has
    a message, and none when it has not. *)
Definition replied (update : Update) (r : reply) : list reply :=
  match message update with
  | Some _ => [r]
  | None => []
  end.


(** The word an outcome reports as matched. *)
Definition matched_word (o : option ModerationOutcome) : option string :=
  match o with
  | Some (DeletedOnMatch word) | Some (DeleteFailed word) => Some word
  | _ => None
  end.

(** The first [n] file operations from [σ] on succeed. *)
Definition io_succeeds (n : nat) (σ : World) : Prop :=
  ∀ r, r ∈ take n (io σ) → r = IoOk.

(** What the service's membership allows, as [check_bot_permissions]
    reads it. *)
Definition can_moderate (r : member_result) : bool :=
  match r with
  | Member status can_delete =>
      bool_decide (status ∈ ["administrator"; "creator"]) && default false can_delete
  | MemberError _ => false
  end.

(** The result of [check_bot_permissions] on a membership. *)
Definition bot_permissions (r : member_result) : bool * permission_message :=
  match r with
  | Member status can_delete =>
      if negb (bool_decide (status ∈ ["administrator"; "creator"]))
      then (false, NotAdministrator)
      else if negb (default false can_delete) then (false, NoDeleteRight)
      else (true, AllRights)
  | MemberError e => (false, CheckError e)
  end.

(** The result of [is_admin] on an update. *)
Definition user_is_admin (update : Update) (σ : World) : bool :=
  if decide (chat_type update = "private") then true
  else
    match chat_member σ (chat_id update) (user_id update) with
    | Member status _ => bool_decide (status ∈ ["creator"; "administrator"])
    | MemberError _ => false
    end.

(** The result of [load_stopwords] on a world. *)
Definition loaded_stopwords (σ : World) (chat : Z) : list string :=
  match files σ !! get_stopwords_file chat, io σ with
  | Some (Document stopwords), ([] | IoOk :: _) => default [] stopwords
  | _, _ => []
  end.

(** The set [mark_processed] leaves. *)
Definition marked (key : string) (cache : gset string) : gset string :=
  if decide (MAX_CACHE_SIZE < size (cache ∪ {[key]}))%nat then {[key]}
  else cache ∪ {[key]}.

(** The capability gate of [check_message] and [add_word] lets the update
    through. *)
Definition capability_gate (update : Update) (σ : World) : Prop :=
  chat_type update = "private" ∨
  can_moderate (chat_member σ (chat_id update) (bot_id σ)) = true.

(** The list a chat's file holds; a chat without a readable list has none. *)
Definition stored_stopwords (σ : World) (chat : Z) : list string :=
  match files σ !! get_stopwords_file chat with
  | Some (Document (Some stopwords)) => stopwords
  | _ => []
  end.

(** The store's functions touch neither the cache nor the transport, and
    log only accesses to the store. *)
Definition store_step (σ σ' : World) : Prop :=
  processed_messages σ' = processed_messages σ ∧
  bot_id σ' = bot_id σ ∧
  chat_member σ' = chat_member σ ∧
  delete_message σ' = delete_message σ ∧
  ∃ evs, trace σ' = trace σ ++ evs ∧ Forall (λ e, is_store_access e = true) evs.

(** The message id and the text of an update that [check_message] does not
    return on at once: it has a message, and the text of the message is
    neither [None] nor empty. *)
Definition text_message (update : Update) : option (Z * string) :=
  match message update with
  | Some (mkMessage mid (Some t)) => if decide (t = "") then None else Some (mid, t)
  | _ => None
  end.

(** The world [check_message] has made when it leaves its capability check:
    the message is marked as processed and, in a chat that is not private,
    the service's membership has been queried. *)
Definition gate_state (update : Update) (mid : Z) (σ : World) : World :=
  let chat := chat_id update in
  let σ1 :=
    with_processed_messages
      (marked (message_key chat mid) (processed_messages σ)) σ in
  if decide (chat_type update ≠ "private") then
    log [EvGetChatMember chat (bot_id σ);
         EvBotPermissions chat (can_moderate (chat_member σ chat (bot_id σ)))] σ1
  else σ1.

(** The runs of [check_message], one constructor for each return point. *)
Inductive check_message_run (lower : string → string) (update : Update) (σ : World) :
    option ModerationOutcome → World → Prop :=
  | run_no_text :
      text_message update = None →
      check_message_run lower update σ None σ
  | run_duplicate mid t :
      text_message update = Some (mid, t) →
      message_key (chat_id update) mid ∈ processed_messages σ →
      check_message_run lower update σ (Some (Skipped AlreadyProcessed)) σ
  | run_no_capability mid t :
      text_message update = Some (mid, t) →
      message_key (chat_id update) mid ∉ processed_messages σ →
      ¬ capability_gate update σ →
      check_message_run lower update σ
        (Some (Skipped InsufficientBotCapability)) (gate_state update mid σ)
  | run_empty mid t :
      text_message update = Some (mid, t) →
      message_key (chat_id update) mid ∉ processed_messages σ →
      capability_gate update σ →
      loaded_stopwords σ (chat_id update) = [] →
      check_message_run lower update σ
        (Some (Skipped EmptyStopwordList))
        (load_stopwords (chat_id update) (gate_state update mid σ)).2
  | run_no_match mid t :
      text_message update = Some (mid, t) →
      message_key (chat_id update) mid ∉ processed_messages σ →
      capability_gate update σ →
      loaded_stopwords σ (chat_id update) ≠ [] →
      scan (loaded_stopwords σ (chat_id update)) (lower t) = None →
      check_message_run lower update σ
        (Some NoMatch)
        (load_stopwords (chat_id update) (gate_state update mid σ)).2
  | run_match mid t word :
      text_message update = Some (mid, t) →
      message_key (chat_id update) mid ∉ processed_messages σ →
      capability_gate update σ →
      loaded_stopwords σ (chat_id update) ≠ [] →
      scan (loaded_stopwords σ (chat_id update)) (lower t) = Some word →
      check_message_run lower update σ
        (Some (match delete_message σ (chat_id update) mid with
               | Deleted => DeletedOnMatch word
               | _ => DeleteFailed word
               end))
        (log [EvDelete (chat_id update) mid]
           (load_stopwords (chat_id update) (gate_state update mid σ)).2).

(** ** Frames *)

(** A computation [m] respects a relation [R] between the world it starts in
    and the world it leaves. *)
Definition respects {A} (R : relation World) (m : M A) : Prop :=
  ∀ σ, R σ (m σ).2.

(** The cache of processed messages is left as it was. *)
Definition keeps_cache : relation World := λ σ σ',
  processed_messages σ' = processed_messages σ.

(** The files and the pending file operations are left as they were. *)
Definition keeps_store : relation World := λ σ σ',
  files σ' = files σ ∧ io σ' = io σ.

(** The answers of the transport are left as they were. *)
Definition keeps_transport : relation World := λ σ σ',
  bot_id σ' = bot_id σ ∧ chat_member σ' = chat_member σ ∧
  delete_message σ' = delete_message σ.

(** The trace grows by events that all satisfy [P]. *)
Definition logs (P : event → bool) : relation World := λ σ σ',
  ∃ evs, trace σ' = trace σ ++ evs ∧ Forall (λ e, P e = true) evs.

(** The worlds the bot is in between two calls of its handlers: the process
    starts with an empty cache, a handler runs to its end, and the
    environment may change everything but the cache. *)
Inductive reachable (lower : string → string) : World → Prop :=
  | reachable_start σ :
      processed_messages σ = ∅ → reachable lower σ
  | reachable_handle c update σ :
      reachable lower σ → reachable lower (handle lower c update σ).2
  | reachable_environment σ σ' :
      reachable lower σ → keeps_cache σ σ' → reachable lower σ'.

(** No event of the kind [P]. *)
Definition without (P : event → bool) (e : event) : bool := negb (P e).

(** An update with its arguments replaced. *)
Definition with_args (args : list string) (update : Update) : Update :=
  mkUpdate (chat_id update) (chat_type update) (user_id update) (message update) args.

(** What [is_admin] adds to the trace. *)
Definition admin_events (update : Update) (σ : World) : list event :=
  (if decide (chat_type update = "private") then []
   else [EvGetChatMember (chat_id update) (user_id update)])
  ++ [EvIsAdmin (chat_id update) (user_id update) (user_is_admin update σ)].

(** What the capability check of [add_word] and [check_message] adds to the
    trace. *)
Definition capability_events (update : Update) (σ : World) : list event :=
  let chat := chat_id update in
  if decide (chat_type update ≠ "private") then
    [EvGetChatMember chat (bot_id σ);
     EvBotPermissions chat (can_moderate (chat_member σ chat (bot_id σ)))]
  else [].

(** The message of the capability check of [add_word] and [start]. *)
Definition capability_message (update : Update) (σ : World) : permission_message :=
  if decide (chat_type update ≠ "private")
  then (bot_permissions (chat_member σ (chat_id update) (bot_id σ))).2
  else AllRights.

(** ** Further frames and invariants *)

Definition is_reply (e : event) : bool :=
  match e with EvReply _ _ => true | _ => false end.

(** The stored list of every chat is left as it was. *)
Definition keeps_stored : relation World := λ σ σ',
  ∀ chat, stored_stopwords σ' chat = stored_stopwords σ chat.

(** The files of the chats other than [chat] are left as they were. *)
Definition keeps_other_files (chat : Z) : relation World := λ σ σ',
  ∀ chat', chat' ≠ chat →
    files σ' !! get_stopwords_file chat' = files σ !! get_stopwords_file chat'.

(** No file operation is going to fail. *)
Definition reliable (σ : World) : Prop := io σ = [].

(** A reliable store stays reliable. *)
Definition stays_reliable : relation World := λ σ σ', reliable σ → reliable σ'.

(** A list as the handlers write it: no word twice, and every word the
    lower-casing of an argument. *)
Definition stopword_list (lower : string → string) (l : list string) : Prop :=
  NoDup l ∧ Forall (λ w, ∃ arg, w = lower arg) l.

(** Every list on file is such a list. *)
Definition store_wf (lower : string → string) (σ : World) : Prop :=
  ∀ file_path l,
    files σ !! file_path = Some (Document (Some l)) → stopword_list lower l.

(** Well-formed files are left well-formed. *)
Definition keeps_wf (lower : string → string) : relation World := λ σ σ',
  store_wf lower σ → store_wf lower σ'.


(** The runs of [add_word], one constructor for each return point, with the
    world each leaves. *)
Inductive add_word_run (lower : string → string) (update : Update) (σ : World) :
    World → Prop :=
  | add_not_admin :
      user_is_admin update σ = false →
      add_word_run lower update σ
        (log (admin_events update σ ++
              [reply_event update ReplyOnlyAdminsAdd]) σ)
  | add_cannot :
      user_is_admin update σ = true →
      ¬ capability_gate update σ →
      add_word_run lower update σ
        (log (admin_events update σ ++ capability_events update σ ++
              [reply_event update
                 (ReplyCannotAdd (capability_message update σ))]) σ)
  | add_usage :
      user_is_admin update σ = true →
      capability_gate update σ →
      args update = [] →
      add_word_run lower update σ
        (log (admin_events update σ ++ capability_events update σ ++
              [reply_event update ReplyUsageAdd]) σ)
  | add_present arg rest :
      user_is_admin update σ = true →
      capability_gate update σ →
      args update = arg :: rest →
      lower arg ∈ loaded_stopwords σ (chat_id update) →
      add_word_run lower update σ
        (log [reply_event update (ReplyAlreadyPresent (lower arg))]
           (load_stopwords (chat_id update)
              (log (admin_events update σ ++ capability_events update σ) σ)).2)
  | add_added arg rest :
      user_is_admin update σ = true →
      capability_gate update σ →
      args update = arg :: rest →
      lower arg ∉ loaded_stopwords σ (chat_id update) →
      add_word_run lower update σ
        (log [reply_event update (ReplyAdded (lower arg))]
           (save_stopwords (chat_id update)
              (loaded_stopwords σ (chat_id update) ++ [lower arg])
              (load_stopwords (chat_id update)
                 (log (admin_events update σ ++ capability_events update σ) σ)).2).2).

(** The runs of [remove_word]. *)
Inductive remove_word_run (lower : string → string) (update : Update) (σ : World) :
    World → Prop :=
  | remove_not_admin :
      user_is_admin update σ = false →
      remove_word_run lower update σ
        (log (admin_events update σ ++
              [reply_event update ReplyOnlyAdminsRemove]) σ)
  | remove_usage :
      user_is_admin update σ = true →
      args update = [] →
      remove_word_run lower update σ
        (log (admin_events update σ ++
              [reply_event update ReplyUsageRemove]) σ)
  | remove_absent arg rest :
      user_is_admin update σ = true →
      args update = arg :: rest →
      lower arg ∉ loaded_stopwords σ (chat_id update) →
      remove_word_run lower update σ
        (log [reply_event update (ReplyNotFound (lower arg))]
           (load_stopwords (chat_id update) (log (admin_events update σ) σ)).2)
  | remove_removed arg rest :
      user_is_admin update σ = true →
      args update = arg :: rest →
      lower arg ∈ loaded_stopwords σ (chat_id update) →
      remove_word_run lower update σ
        (log [reply_event update (ReplyRemoved (lower arg))]
           (save_stopwords (chat_id update)
              (list_remove_first (lower arg) (loaded_stopwords σ (chat_id update)))
              (load_stopwords (chat_id update) (log (admin_events update σ) σ)).2).2).

(** ** Worlds the examples run in *)

Definition group_chat : Z := -100.
Definition alice : Z := 5.
Definition the_bot : Z := 999.

(** A group in which [alice] has the given status and the service the given
    membership, with the given stop-words on file. *)
Definition example_world (alice_status : string) (bot : member_result)
    (stored : option (list string)) (seen : gset string) : World :=
  mkWorld seen
    (match stored with
     | Some l => {[get_stopwords_file group_chat := Document (Some l)]}
     | None => ∅
     end)
    [] the_bot
    (λ _ user, if decide (user = the_bot) then bot else Member alice_status None)
    (λ _ _, Deleted) [].

Definition text_update (message_id : Z) (t : string) : Update :=
  mkUpdate group_chat "supergroup" alice (Some (mkMessage message_id (Some t))) [].

Definition command_update (args : list string) : Update :=
  mkUpdate group_chat "supergroup" alice (Some (mkMessage 1 (Some "/command"))) args.

(** A cache that holds [MAX_CACHE_SIZE] keys: those of the messages 1 to
    [MAX_CACHE_SIZE] of the group. *)
Definition full_cache : gset string :=
  list_to_set ((λ i, message_key group_chat (Z.of_nat i)) <$> seq 1 MAX_CACHE_SIZE).

Arguments get_stopwords_file : simpl never.
Arguments message_key : simpl never.
Arguments contains : simpl never.

(** * Properties *)

(** ** Strings and the scan *)

Lemma append_String (c : ascii) (s t : string) :
  String c s +:+ t = String c (s +:+ t).
Proof. reflexivity. Qed.

Lemma prefix_spec (needle hay : string) :
  String.prefix needle hay = true ↔ ∃ after, hay = needle +:+ after.
Proof.
  revert hay. induction needle as [|c needle IH]; intros hay; simpl.
  - split; [intros _; by exists hay | by destruct hay].
  - setoid_rewrite append_String. destruct hay as [|d hay]; simpl.
    + split; [done | intros [after Heq]; discriminate].
    + destruct (Ascii.ascii_dec c d) as [->|Hne].
      * rewrite IH. split.
        -- intros [after ->]. by exists after.
        -- intros [after Heq]. exists after. congruence.
      * split; [done | intros [after Heq]; congruence].
Qed.

Lemma contains_spec (needle hay : string) :
  contains needle hay = true ↔ substring_of needle hay.
Proof.
  unfold substring_of. induction hay as [|c hay IH].
  - unfold contains. rewrite orb_false_r, prefix_spec. split.
    + intros [after Heq]. by exists "", after.
    + intros ([|b before] & after & Heq); [by exists after | discriminate].
  - change (contains needle (String c hay))
      with (String.prefix needle (String c hay) || contains needle hay).
    rewrite orb_true_iff, prefix_spec, IH. split.
    + intros [[after Heq] | (before & after & ->)].
      * by exists "", after.
      * by exists (String c before), after.
    + intros ([|b before] & after & Heq).
      * left. by exists after.
      * right. exists before, after. rewrite append_String in Heq. congruence.
Qed.

Lemma contains_false (needle hay : string) :
  contains needle hay = false ↔ ¬ substring_of needle hay.
Proof. rewrite <- contains_spec. by destruct (contains needle hay). Qed.

(** [scan] returns the first word of the list that the text contains. *)
Lemma scan_Some (stopwords : list string) (t word : string) :
  scan stopwords t = Some word ↔
  ∃ before after,
    stopwords = before ++ word :: after ∧
    substring_of word t ∧
    ∀ w, w ∈ before → ¬ substring_of w t.
Proof.
  induction stopwords as [|w0 stopwords IH]; simpl.
  - split; [done | intros ([|??] & ? & ? & _); discriminate].
  - destruct (contains w0 t) eqn:Hc.
    + clear IH. split.
      * intros [= ->]. exists [], stopwords.
        split_and!; [done | by apply contains_spec |].
        intros w Hw. by apply elem_of_nil in Hw.
      * intros ([|w' before] & after & Heq & Hin & Hfirst); simplify_eq/=; [done|].
        exfalso. apply (Hfirst w'); [by left | by apply contains_spec].
    + rewrite IH. clear IH. split.
      * intros (before & after & -> & Hin & Hfirst).
        exists (w0 :: before), after. split_and!; [done..|].
        intros w [->|Hw]%elem_of_cons; [by apply contains_false | by apply Hfirst].
      * intros ([|w' before] & after & Heq & Hin & Hfirst); simplify_eq/=.
        -- apply contains_spec in Hin. congruence.
        -- exists before, after. split_and!; [done..|].
           intros w Hw. apply Hfirst. by right.
Qed.

Lemma scan_None (stopwords : list string) (t : string) :
  scan stopwords t = None ↔ ∀ w, w ∈ stopwords → ¬ substring_of w t.
Proof.
  induction stopwords as [|w0 stopwords IH]; simpl.
  - split; [|done]. intros _ w Hw. by apply elem_of_nil in Hw.
  - destruct (contains w0 t) eqn:Hc.
    + split; [done|]. intros H. exfalso.
      apply (H w0); [by left | by apply contains_spec].
    + rewrite IH. clear IH. split.
      * intros H w [->|Hw]%elem_of_cons; [by apply contains_false | by apply H].
      * intros H w Hw. apply H. by right.
Qed.

(** ** Running the monad *)

Lemma bind_run {A B} (m : M A) (f : A → M B) (σ : World) :
  (m ≫= f) σ = f (m σ).1 (m σ).2.
Proof. unfold mbind, M_bind. by destruct (m σ). Qed.

Lemma log_log (l1 l2 : list event) (σ : World) :
  log l2 (log l1 σ) = log (l1 ++ l2) σ.
Proof. unfold log. simpl. by rewrite <- (assoc_L (++)). Qed.

Lemma log_nil (σ : World) : log [] σ = σ.
Proof. destruct σ. unfold log. simpl. by rewrite (right_id_L [] (++)). Qed.

Lemma emit_run (e : event) (σ : World) : emit e σ = ((), log [e] σ).
Proof. reflexivity. Qed.

Lemma reply_text_run (update : Update) (r : reply) (σ : World) :
  reply_text update r σ = ((), log [reply_event update r] σ).
Proof. unfold reply_text, reply_event. by destruct (message update). Qed.

Lemma replies_reply_event (update : Update) (r : reply) :
  replies [reply_event update r] = replied update r.
Proof. unfold reply_event, replied. by destruct (message update). Qed.

Lemma get_chat_member_run (chat user : Z) (σ : World) :
  get_chat_member chat user σ =
  (chat_member σ chat user, log [EvGetChatMember chat user] σ).
Proof. reflexivity. Qed.

Lemma can_moderate_bot_permissions (r : member_result) :
  (bot_permissions r).1 = can_moderate r.
Proof.
  destruct r as [status can_delete|e]; simpl; [|done].
  destruct (bool_decide _); simpl; [|done]. by destruct (default false can_delete).
Qed.

Lemma check_bot_permissions_run (chat : Z) (σ : World) :
  let r := chat_member σ chat (bot_id σ) in
  check_bot_permissions chat σ =
  (bot_permissions r,
   log [EvGetChatMember chat (bot_id σ); EvBotPermissions chat (can_moderate r)] σ).
Proof.
  unfold check_bot_permissions. simpl.
  rewrite bind_run. simpl. rewrite bind_run, get_chat_member_run. simpl.
  destruct (chat_member σ chat (bot_id σ)) as [status can_delete|e]; simpl.
  - destruct (bool_decide _); simpl.
    + destruct (default false can_delete); simpl;
        by rewrite bind_run, emit_run, log_log.
    + by rewrite bind_run, emit_run, log_log.
  - by rewrite bind_run, emit_run, log_log.
Qed.

Lemma is_admin_run (update : Update) (σ : World) :
  is_admin update σ = (user_is_admin update σ, log (admin_events update σ) σ).
Proof.
  unfold is_admin, admin_events, user_is_admin. simpl. case_decide; simpl.
  - by rewrite bind_run, emit_run.
  - rewrite bind_run, get_chat_member_run. simpl.
    destruct (chat_member σ _ _); by rewrite bind_run, emit_run, log_log.
Qed.

Lemma safe_delete_message_run (chat mid : Z) (σ : World) :
  safe_delete_message chat mid σ =
  (match delete_message σ chat mid with Deleted => true | _ => false end,
   log [EvDelete chat mid] σ).
Proof.
  unfold safe_delete_message. rewrite bind_run, emit_run. simpl.
  rewrite bind_run. simpl. by destruct (delete_message σ chat mid).
Qed.

Lemma mark_processed_run (key : string) (σ : World) :
  mark_processed key σ =
  ((), with_processed_messages (marked key (processed_messages σ)) σ).
Proof.
  unfold mark_processed, marked. rewrite bind_run. simpl.
  rewrite bind_run. simpl. case_decide; [|done].
  rewrite bind_run. simpl. unfold set_processed_messages, with_processed_messages.
  simpl. by rewrite (left_id_L ∅ (∪)).
Qed.

(** ** The stop-word store *)

(** What [save_stopwords] leaves in the world. *)
Lemma save_stopwords_run (chat : Z) (stopwords : list string) (σ : World) :
  let file_path := get_stopwords_file chat in
  let σ1 := log [EvSave chat stopwords] σ in
  save_stopwords chat stopwords σ =
  ((), match io σ with
       | [] => with_file file_path (Document (Some stopwords)) σ1
       | IoOk :: rest =>
           with_file file_path (Document (Some stopwords)) (with_io rest σ1)
       | IoOpenError :: rest => with_io rest σ1
       | IoBodyError :: rest => with_file file_path Malformed (with_io rest σ1)
       end).
Proof.
  unfold save_stopwords. simpl. rewrite bind_run, emit_run. simpl.
  rewrite bind_run. unfold next_io. simpl.
  destruct (io σ) as [|[] rest]; reflexivity.
Qed.

(** What [load_stopwords] returns. *)
Lemma load_stopwords_result (chat : Z) (σ : World) :
  (load_stopwords chat σ).1 = loaded_stopwords σ chat.
Proof.
  unfold load_stopwords, loaded_stopwords. simpl.
  rewrite bind_run, emit_run. simpl. rewrite bind_run. simpl.
  destruct (files σ !! get_stopwords_file chat) as [[stopwords|]|].
  - rewrite bind_run. unfold next_io. simpl.
    destruct (io σ) as [|[] rest]; reflexivity.
  - rewrite bind_run. unfold next_io. simpl.
    destruct (io σ) as [|[] rest]; reflexivity.
  - rewrite bind_run. simpl. by destruct (io σ).
Qed.

(** What [load_stopwords] leaves in the world: the file is read when it
    exists, and an empty list is saved when it does not. *)
Lemma load_stopwords_state (chat : Z) (σ : World) :
  (load_stopwords chat σ).2 =
  match files σ !! get_stopwords_file chat with
  | Some _ => with_io (tail (io σ)) (log [EvLoad chat] σ)
  | None => (save_stopwords chat [] (log [EvLoad chat] σ)).2
  end.
Proof.
  unfold load_stopwords. simpl.
  rewrite bind_run, emit_run. simpl. rewrite bind_run. simpl.
  destruct (files σ !! get_stopwords_file chat) as [content|].
  - rewrite bind_run. unfold next_io. simpl.
    destruct σ as [pm fs [|r rest] b cm dm tr]; simpl.
    + by destruct content.
    + destruct r, content; reflexivity.
  - by rewrite bind_run.
Qed.

Lemma save_stopwords_step (chat : Z) (stopwords : list string) (σ : World) :
  store_step σ (save_stopwords chat stopwords σ).2.
Proof.
  rewrite save_stopwords_run. simpl.
  destruct (io σ) as [|[] rest]; simpl; split_and!; try done;
    exists [EvSave chat stopwords]; by repeat constructor.
Qed.

Lemma load_stopwords_step (chat : Z) (σ : World) :
  store_step σ (load_stopwords chat σ).2.
Proof.
  rewrite load_stopwords_state.
  destruct (files σ !! get_stopwords_file chat).
  - simpl. split_and!; try done. exists [EvLoad chat]. by repeat constructor.
  - destruct (save_stopwords_step chat [] (log [EvLoad chat] σ))
      as (? & ? & ? & ? & evs & Htr & Hevs).
    split_and!; try done. exists (EvLoad chat :: evs). split.
    + rewrite Htr. simpl. by rewrite <- (assoc_L (++)).
    + by constructor.
Qed.

(** ** The runs of [check_message] *)

Lemma text_message_Some (update : Update) (mid : Z) (t : string) :
  message update = Some (mkMessage mid (Some t)) → t ≠ "" →
  text_message update = Some (mid, t).
Proof. intros Hm Ht. unfold text_message. rewrite Hm. by case_decide. Qed.

Lemma loaded_stopwords_gate_state (update : Update) (mid : Z) (σ : World) (chat : Z) :
  loaded_stopwords (gate_state update mid σ) chat = loaded_stopwords σ chat.
Proof. unfold gate_state. by case_decide. Qed.

(** Every call of [check_message] is one of the runs. *)
Lemma check_message_runs (lower : string → string) (update : Update) (σ : World) :
  check_message_run lower update σ
    (check_message lower update σ).1 (check_message lower update σ).2.
Proof.
  unfold check_message.
  destruct (message update) as [[mid [t|]]|] eqn:Hm; simpl;
    [|apply run_no_text; unfold text_message; by rewrite Hm..].
  case_decide as Ht.
  { apply run_no_text. unfold text_message. rewrite Hm. by case_decide. }
  pose proof (text_message_Some update mid t Hm Ht) as Htm.
  rewrite bind_run. simpl. case_decide as Hdup; [by apply (run_duplicate _ _ _ mid t)|].
  rewrite bind_run, mark_processed_run. simpl. rewrite bind_run.
  set (σ1 := with_processed_messages _ σ).
  assert (∃ ok msg,
    ((if decide (chat_type update ≠ "private")
      then check_bot_permissions (chat_id update)
      else mret (true, AllRights)) σ1 = ((ok, msg), gate_state update mid σ)) ∧
    (ok = true ↔ capability_gate update σ)) as (ok & msg & -> & Hok).
  { unfold gate_state, capability_gate. fold σ1. case_decide as Hty.
    - rewrite check_bot_permissions_run. simpl.
      set (r := chat_member σ (chat_id update) (bot_id σ)).
      exists (can_moderate r), (bot_permissions r).2.
      split; [|split; [by right | by intros [?|?]]].
      rewrite <- can_moderate_bot_permissions. by destruct (bot_permissions r).
    - exists true, AllRights. split; [done|]. split; [by left | done]. }
  simpl. destruct ok; simpl.
  2: { apply (run_no_capability _ _ _ mid t); [done..|]. intros Hg. by apply Hok in Hg. }
  assert (capability_gate update σ) as Hgate by by apply Hok.
  rewrite bind_run.
  pose proof (load_stopwords_result (chat_id update) (gate_state update mid σ)) as Hl.
  rewrite loaded_stopwords_gate_state in Hl. rewrite Hl.
  destruct (loaded_stopwords σ (chat_id update)) as [|w ws] eqn:Hloaded.
  { by apply (run_empty _ _ _ mid t). }
  destruct (scan (w :: ws) (lower t)) as [word|] eqn:Hscan.
  - rewrite bind_run, safe_delete_message_run. simpl.
    destruct (load_stopwords_step (chat_id update) (gate_state update mid σ))
      as (_ & _ & _ & -> & _).
    replace (delete_message (gate_state update mid σ)) with (delete_message σ)
      by (unfold gate_state; by case_decide).
    pose proof (run_match lower update σ mid t word Htm Hdup Hgate) as Hrun.
    rewrite Hloaded in Hrun. specialize (Hrun ltac:(done) Hscan).
    by destruct (delete_message σ (chat_id update) mid).
  - pose proof (run_no_match lower update σ mid t Htm Hdup Hgate) as Hrun.
    rewrite Hloaded in Hrun. by apply Hrun.
Qed.

(** ** What the runs leave in the trace *)

Lemma deletes_app (l1 l2 : list event) :
  deletes (l1 ++ l2) = deletes l1 ++ deletes l2.
Proof. apply List.filter_app. Qed.

Lemma deletes_store_access (evs : list event) :
  Forall (λ e, is_store_access e = true) evs → deletes evs = [].
Proof.
  induction 1 as [|e evs He _ IH]; [done|].
  unfold deletes in *. simpl. rewrite IH. by destruct e.
Qed.

Lemma deletes_store_step (σ σ' : World) :
  store_step σ σ' → deletes (trace σ') = deletes (trace σ).
Proof.
  intros (_ & _ & _ & _ & evs & -> & Hevs).
  by rewrite deletes_app, (deletes_store_access evs Hevs), (right_id_L [] (++)).
Qed.

Lemma deletes_gate_state (update : Update) (mid : Z) (σ : World) :
  deletes (trace (gate_state update mid σ)) = deletes (trace σ).
Proof.
  unfold gate_state. case_decide; simpl; [|done].
  rewrite deletes_app. simpl. by rewrite (right_id_L [] (++)).
Qed.

(** A run issues a delete request exactly when it reports a word, and then
    one request, for the message it was called on. *)
Lemma check_message_run_deletes lower update σ o σ' :
  check_message_run lower update σ o σ' →
  deletes (trace σ') =
  deletes (trace σ) ++
  match matched_word o, text_message update with
  | Some _, Some (mid, _) => [EvDelete (chat_id update) mid]
  | _, _ => []
  end.
Proof.
  destruct 1 as [?|mid t ? ?|mid t ? ? ?|mid t ? ? ? ?|mid t ? ? ? ? ?
                 |mid t word Htm ? ? ? ?]; simpl;
    rewrite ?(right_id_L [] (++)); try done.
  - apply deletes_gate_state.
  - rewrite (deletes_store_step _ _ (load_stopwords_step _ _)).
    apply deletes_gate_state.
  - rewrite (deletes_store_step _ _ (load_stopwords_step _ _)).
    apply deletes_gate_state.
  - rewrite Htm, deletes_app.
    rewrite (deletes_store_step _ _ (load_stopwords_step _ _)), deletes_gate_state.
    by destruct (delete_message σ (chat_id update) mid).
Qed.

(** ** The list on file and the list loaded *)

Lemma loaded_nonempty (σ : World) (chat : Z) :
  loaded_stopwords σ chat ≠ [] →
  stored_stopwords σ chat = loaded_stopwords σ chat.
Proof.
  unfold loaded_stopwords, stored_stopwords.
  destruct (files σ !! get_stopwords_file chat) as [[[l|]|]|]; try done;
    by destruct (io σ) as [|[] ?].
Qed.

Lemma loaded_io_succeeds (σ : World) (chat : Z) :
  io_succeeds 1 σ → loaded_stopwords σ chat = stored_stopwords σ chat.
Proof.
  unfold io_succeeds, loaded_stopwords, stored_stopwords. intros Hio.
  destruct (files σ !! get_stopwords_file chat) as [[[l|]|]|];
    destruct (io σ) as [|r rest]; try done;
    by rewrite (Hio r) by (simpl; by left).
Qed.

(** ** The scan (claim C1) *)

(** Claim C1.  Whenever [check_message] reports a matched word, that word is
    the first word of the chat's stored list, in stored order, that is a
    substring of the lower-cased text of the message, whatever words follow
    it in the list, and the one delete request of the call is issued for the
    message.  Conversely, on a text message that is new to the cache, passes
    the capability check and finds the store readable, every word of the
    stored list is tried in stored order: the first stored word that occurs
    in the lower-cased text is reported and the message is requested for
    deletion, wherever in the list that word stands; and no word is reported
    and nothing is requested only when no stored word occurs in the text. *)
Theorem check_message_first_match (lower : string → string) (update : Update) (σ : World) :
  (∀ word,
     matched_word (check_message lower update σ).1 = Some word →
     ∃ mid t before after,
       text_message update = Some (mid, t) ∧
       stored_stopwords σ (chat_id update) = before ++ word :: after ∧
       substring_of word (lower t) ∧
       (∀ w, w ∈ before → ¬ substring_of w (lower t)) ∧
       deletes (trace (check_message lower update σ).2) =
       deletes (trace σ) ++ [EvDelete (chat_id update) mid]) ∧
  (∀ mid t,
     text_message update = Some (mid, t) →
     message_key (chat_id update) mid ∉ processed_messages σ →
     capability_gate update σ →
     io_succeeds 1 σ →
     matched_word (check_message lower update σ).1 =
     scan (stored_stopwords σ (chat_id update)) (lower t) ∧
     (∀ before word after,
        stored_stopwords σ (chat_id update) = before ++ word :: after →
        substring_of word (lower t) →
        (∀ w, w ∈ before → ¬ substring_of w (lower t)) →
        matched_word (check_message lower update σ).1 = Some word ∧
        deletes (trace (check_message lower update σ).2) =
        deletes (trace σ) ++ [EvDelete (chat_id update) mid]) ∧
     ((∀ w, w ∈ stored_stopwords σ (chat_id update) → ¬ substring_of w (lower t)) →
      matched_word (check_message lower update σ).1 = None ∧
      deletes (trace (check_message lower update σ).2) = deletes (trace σ))).
Proof.
  pose proof (check_message_runs lower update σ) as Hrun.
  pose proof (check_message_run_deletes _ _ _ _ _ Hrun) as Hdel.
  destruct (check_message lower update σ) as [o σ']. simpl in *. split.
  - intros word. revert Hdel.
    destruct Hrun as [?|?|?|?|?|mid t word' Htm Hnew Hgate Hne Hscan];
      simpl; intros Hdel Hword; try done.
    rewrite Htm in Hdel.
    rewrite <- (loaded_nonempty _ _ Hne) in Hscan.
    apply scan_Some in Hscan as (before & after & Hstored & Hin & Hfirst).
    exists mid, t, before, after.
    by destruct (delete_message σ (chat_id update) mid); simplify_eq/=.
  - intros mid t Htm Hnew Hgate Hio.
    assert (matched_word o = scan (stored_stopwords σ (chat_id update)) (lower t))
      as Hfound.
    { clear Hdel. rewrite <- (loaded_io_succeeds _ _ Hio).
      destruct Hrun as [Htm'|? ? Htm'|? ? Htm'|? ? Htm' ? ? Hl|? ? Htm' ? ? ? Hscan
                       |mid' t' word' Htm' ? ? ? Hscan];
        rewrite Htm in Htm'; simplify_eq/=; try done.
      + by rewrite Hl.
      + rewrite Hscan. by destruct (delete_message σ _ _). }
    rewrite Htm in Hdel. split_and!; [done|..].
    + intros before word after Hstored Hin Hfirst.
      assert (matched_word o = Some word) as Hword.
      { rewrite Hfound. apply scan_Some. by exists before, after. }
      split; [done|]. by rewrite Hword in Hdel.
    + intros Hnone. apply scan_None in Hnone. rewrite <- Hfound in Hnone.
      split; [done|]. by rewrite Hnone, (right_id_L [] (++)) in Hdel.
Qed.

(** The example of the specification: with ["cat"; "category"] on file, in
    that order, the message "this is a category" is reported with "cat";
    and with ["dog"; "cat"] on file the message "this is a cat" is reported
    with "cat", the second word of the list. *)
Lemma check_message_first_match_witness :
  let admin := Member "administrator" (Some true) in
  let σ := example_world "member" admin (Some ["cat"; "category"]) ∅ in
  let σ' := example_world "member" admin (Some ["dog"; "cat"]) ∅ in
  (matched_word (check_message lower_ascii (text_update 7 "this is a category") σ).1 =
   Some "cat" ∧
   deletes (trace (check_message lower_ascii (text_update 7 "this is a category") σ).2) =
   [EvDelete group_chat 7]) ∧
  (matched_word (check_message lower_ascii (text_update 8 "this is a cat") σ').1 =
   Some "cat" ∧
   deletes (trace (check_message lower_ascii (text_update 8 "this is a cat") σ').2) =
   [EvDelete group_chat 8]).
Proof.
  split.
  - destruct (check_message_first_match lower_ascii
                (text_update 7 "this is a category")
                (example_world "member" (Member "administrator" (Some true))
                   (Some ["cat"; "category"]) ∅)) as [_ Hcomplete].
    destruct (Hcomplete 7 "this is a category") as (_ & Hmatch & _).
    + reflexivity.
    + apply not_elem_of_empty.
    + right. by vm_compute.
    + intros r Hr. by apply elem_of_nil in Hr.
    + destruct (Hmatch [] "cat" ["category"]) as [Hword Hdel].
      * by vm_compute.
      * apply contains_spec. by vm_compute.
      * intros w Hw. by apply elem_of_nil in Hw.
      * split; [exact Hword | exact Hdel].
  - destruct (check_message_first_match lower_ascii
                (text_update 8 "this is a cat")
                (example_world "member" (Member "administrator" (Some true))
                   (Some ["dog"; "cat"]) ∅)) as [_ Hcomplete].
    destruct (Hcomplete 8 "this is a cat") as (_ & Hmatch & _).
    + reflexivity.
    + apply not_elem_of_empty.
    + right. by vm_compute.
    + intros r Hr. by apply elem_of_nil in Hr.
    + destruct (Hmatch ["dog"] "cat" []) as [Hword Hdel].
      * by vm_compute.
      * apply contains_spec. by vm_compute.
      * intros w ->%list_elem_of_singleton. apply contains_false. by vm_compute.
      * split; [exact Hword | exact Hdel].
Defined.

(** The end-to-end scenario of the specification: with ["spam"] on file
    and a service that may delete, "buy SPAM now" is deleted on "spam" with
    one delete request. *)
Example check_message_end_to_end :
  let σ := example_world "member" (Member "administrator" (Some true))
             (Some ["spam"]) ∅ in
  let r := check_message lower_ascii (text_update 7 "buy SPAM now") σ in
  r.1 = Some (DeletedOnMatch "spam") ∧
  deletes (trace r.2) = [EvDelete group_chat 7] ∧
  processed_messages r.2 = {[message_key group_chat 7]}.
Proof. by vm_compute. Qed.

(** ** Frames of the handlers *)

Section Frames.

Context (R : relation World) `{!PreOrder R}.

Lemma respects_ret {A} (x : A) : respects R (mret x).
Proof. intros σ. simpl. reflexivity. Qed.

Lemma respects_bind {A B} (m : M A) (f : A → M B) :
  respects R m → (∀ x, respects R (f x)) → respects R (m ≫= f).
Proof.
  intros Hm Hf σ. rewrite bind_run. by etrans; [apply Hm | apply Hf].
Qed.

Lemma respects_get : respects R get.
Proof. intros σ. simpl. reflexivity. Qed.

End Frames.

Global Instance keeps_cache_preorder : PreOrder keeps_cache.
Proof. split; unfold keeps_cache; [by intros ? | intros ??? ??; congruence]. Qed.

Global Instance keeps_store_preorder : PreOrder keeps_store.
Proof.
  split; unfold keeps_store; [by intros ? | intros ??? [??] [??]; split; congruence].
Qed.

Global Instance logs_preorder (P : event → bool) : PreOrder (logs P).
Proof.
  split.
  - intros σ. exists []. by rewrite (right_id_L [] (++)).
  - intros σ1 σ2 σ3 (evs & Htr & Hevs) (evs' & Htr' & Hevs').
    exists (evs ++ evs'). split.
    + by rewrite Htr', Htr, (assoc_L (++)).
    + by apply Forall_app.
Qed.

Lemma logs_emit (P : event → bool) (e : event) :
  P e = true → respects (logs P) (emit e).
Proof. intros He σ. exists [e]. split; [done|]. by constructor. Qed.

(** Splits a frame of a handler into the frames of the calls it makes. *)
Ltac frame :=
  repeat first
    [ apply respects_ret; apply _
    | apply respects_get; apply _
    | apply respects_bind; [apply _| |intros ?]
    | apply logs_emit; reflexivity
    | progress case_decide
    | match goal with
      | |- respects _ (match ?x with _ => _ end) => destruct x
      end
    | progress unfold is_admin, check_bot_permissions, load_stopwords,
        save_stopwords, get_chat_member, reply_text
    | done ].

Create HintDb frames.

Lemma keeps_cache_emit e : respects keeps_cache (emit e).
Proof. by intros σ. Qed.
Lemma keeps_cache_next_io : respects keeps_cache next_io.
Proof. intros σ. unfold next_io. by destruct (io σ). Qed.
Lemma keeps_cache_write_file p c : respects keeps_cache (write_file p c).
Proof. by intros σ. Qed.

Lemma keeps_store_emit e : respects keeps_store (emit e).
Proof. by intros σ. Qed.
Lemma keeps_store_set_processed_messages f :
  respects keeps_store (set_processed_messages f).
Proof. by intros σ. Qed.

Lemma logs_next_io P : respects (logs P) next_io.
Proof.
  intros σ. exists []. rewrite (right_id_L [] (++)).
  unfold next_io. by destruct (io σ).
Qed.
Lemma logs_write_file P p c : respects (logs P) (write_file p c).
Proof. intros σ. exists []. by rewrite (right_id_L [] (++)). Qed.
Lemma logs_set_processed_messages P f :
  respects (logs P) (set_processed_messages f).
Proof. intros σ. exists []. by rewrite (right_id_L [] (++)). Qed.

Global Hint Resolve keeps_cache_emit keeps_cache_next_io keeps_cache_write_file
  keeps_store_emit keeps_store_set_processed_messages
  logs_next_io logs_write_file logs_set_processed_messages : frames.

Ltac frames := frame; auto with frames.

Lemma keeps_cache_load_stopwords chat : respects keeps_cache (load_stopwords chat).
Proof. frames. Qed.

(** Only [check_message] touches the cache. *)
Lemma keeps_cache_handle lower c update :
  c ≠ TextMessage → respects keeps_cache (handle lower c update).
Proof.
  intros Hc. destruct c; try done; simpl;
    unfold start, help_command, add_word, remove_word, list_words,
      check_permissions; frames.
Qed.

(** ** The cache of processed messages (claim C2) *)

Lemma size_marked (key : string) (cache : gset string) :
  (size (marked key cache) ≤ MAX_CACHE_SIZE)%nat.
Proof.
  unfold marked. case_decide; [|lia].
  rewrite size_singleton. unfold MAX_CACHE_SIZE. lia.
Qed.

(** The code adds the key and clears the set afterwards, the specification
    clears the set and adds the key afterwards: the two leave the same set. *)
Lemma marked_insert_bounded_spec (key : string) (cache : gset string) :
  key ∉ cache → marked key cache = insert_bounded_spec key cache.
Proof.
  intros Hnew. unfold marked, insert_bounded_spec.
  rewrite (decide_False (P := key ∈ cache)) by done.
  rewrite size_union by set_solver. by rewrite size_singleton.
Qed.

(** The cache [check_message] leaves. *)
Lemma check_message_cache lower update σ :
  processed_messages (check_message lower update σ).2 =
  match text_message update with
  | Some (mid, _) =>
      insert_bounded_spec (message_key (chat_id update) mid) (processed_messages σ)
  | None => processed_messages σ
  end.
Proof.
  assert (∀ mid, processed_messages (gate_state update mid σ) =
                 marked (message_key (chat_id update) mid) (processed_messages σ))
    as Hgate by (intros mid; unfold gate_state; by case_decide).
  assert (∀ mid, processed_messages
                   (load_stopwords (chat_id update) (gate_state update mid σ)).2 =
                 marked (message_key (chat_id update) mid) (processed_messages σ))
    as Hload by (intros mid; by rewrite keeps_cache_load_stopwords).
  destruct (check_message_runs lower update σ)
    as [Htm|mid t Htm Hdup|mid t Htm Hnew _|mid t Htm Hnew _ _|mid t Htm Hnew _ _ _
       |mid t word Htm Hnew _ _ _];
    rewrite Htm; simpl; rewrite ?Hgate, ?Hload;
    try (by apply marked_insert_bounded_spec); [done|].
  unfold insert_bounded_spec. by rewrite decide_True.
Qed.

Lemma size_insert_bounded_spec (key : string) (cache : gset string) :
  (size cache ≤ MAX_CACHE_SIZE)%nat →
  (size (insert_bounded_spec key cache) ≤ MAX_CACHE_SIZE)%nat.
Proof.
  intros Hcache. destruct (decide (key ∈ cache)) as [Hin|Hnew].
  - unfold insert_bounded_spec. by rewrite decide_True.
  - rewrite <- marked_insert_bounded_spec by done. apply size_marked.
Qed.

(** Claim C2.  Between any two handler calls the cache holds at most
    [MAX_CACHE_SIZE] keys, however many messages have been processed (lines
    305-311 run without an [await], so no other point sees the cache); on a
    text message the cache [check_message] leaves is the one the
    specification describes: the whole set is cleared when the new key would
    grow it past the maximum, and the new key alone is inserted; and after
    the call the key of the message is in the cache. *)
Theorem processed_messages_bounded (lower : string → string) :
  (∀ σ, reachable lower σ → (size (processed_messages σ) ≤ MAX_CACHE_SIZE)%nat) ∧
  (∀ update σ mid t,
     text_message update = Some (mid, t) →
     let key := message_key (chat_id update) mid in
     let cache' := processed_messages (check_message lower update σ).2 in
     cache' = insert_bounded_spec key (processed_messages σ) ∧
     key ∈ cache' ∧
     (key ∉ processed_messages σ →
      (MAX_CACHE_SIZE < size (processed_messages σ) + 1)%nat →
      cache' = {[key]})).
Proof.
  split.
  - induction 1 as [σ Hempty|c update σ _ IH|σ σ' _ IH Henv].
    + rewrite Hempty, size_empty. lia.
    + assert (c = TextMessage ∨ c ≠ TextMessage) as [->|Hc]
        by (destruct c; (by left) || (by right)).
      * simpl. rewrite bind_run. simpl. rewrite check_message_cache.
        destruct (text_message update) as [[mid t]|]; [|done].
        by apply size_insert_bounded_spec.
      * by rewrite (keeps_cache_handle lower c update Hc σ).
    + by rewrite Henv.
  - intros update σ mid t Htm key cache'. subst cache'.
    rewrite check_message_cache, Htm. fold key. split_and!; [done|..].
    + unfold insert_bounded_spec. case_decide; [done|].
      case_decide; set_solver.
    + intros Hnew Hfull. unfold insert_bounded_spec.
      by rewrite (decide_False (P := key ∈ _)), decide_True.
Qed.

(** A reachable world of the example: one message has been handled. *)
Lemma processed_messages_bounded_witness :
  (size (processed_messages
           (handle lower_ascii TextMessage (text_update 7 "hello")
              (example_world "member" (Member "member" None) None ∅)).2)
   ≤ MAX_CACHE_SIZE)%nat.
Proof.
  apply (proj1 (processed_messages_bounded lower_ascii)).
  apply reachable_handle, reachable_start. reflexivity.
Defined.

(** ** The store (claims C7 and C8) *)

Lemma io_succeeds_cons (n : nat) (r : io_result) (rest : list io_result) (σ : World) :
  io σ = r :: rest → io_succeeds (S n) σ →
  r = IoOk ∧ ∀ σ', io σ' = rest → io_succeeds n σ'.
Proof.
  unfold io_succeeds. intros -> Hio. split.
  - apply Hio. by left.
  - intros σ' -> r' Hr'. apply Hio. by right.
Qed.

(** A successful save leaves the list on file. *)
Lemma save_stopwords_stored (chat : Z) (stopwords : list string) (σ : World) :
  io_succeeds 1 σ →
  files (save_stopwords chat stopwords σ).2 !! get_stopwords_file chat =
  Some (Document (Some stopwords)).
Proof.
  intros Hio. rewrite save_stopwords_run. simpl.
  destruct (io σ) as [|r rest] eqn:Hr; simpl.
  - by rewrite lookup_insert_eq.
  - destruct (io_succeeds_cons 0 r rest σ Hr Hio) as [-> _]. simpl.
    by rewrite lookup_insert_eq.
Qed.

Lemma save_stopwords_io (chat : Z) (stopwords : list string) (σ : World) :
  io (save_stopwords chat stopwords σ).2 = tail (io σ).
Proof.
  rewrite save_stopwords_run. destruct σ as [pm fs i b cm dm tr]. simpl.
  by destruct i as [|[] rest].
Qed.

(** Claim C7.  When the write of the save and the read of the load both
    succeed, saving a list for a chat and loading the chat's list returns
    the list that was saved: the same words in the same order, for every
    chat identifier and every list, the empty one included. *)
Theorem save_load_roundtrip (chat : Z) (W : list string) (σ : World) :
  io_succeeds 2 σ →
  (load_stopwords chat (save_stopwords chat W σ).2).1 = W.
Proof.
  intros Hio. rewrite load_stopwords_result. unfold loaded_stopwords.
  rewrite save_stopwords_stored, save_stopwords_io.
  - unfold io_succeeds in Hio.
    destruct (io σ) as [|r [|r' rest]]; simpl; [done..|].
    by rewrite (Hio r') by (simpl; right; left).
  - intros r Hr. apply Hio. destruct (io σ) as [|r0 rest]; [done|].
    simpl in *. apply elem_of_cons in Hr as [->|Hr]; [by left|].
    by apply elem_of_nil in Hr.
Qed.

Lemma save_load_roundtrip_witness :
  (load_stopwords 42
     (save_stopwords 42 ["spam"; "eggs"]
        (example_world "member" (Member "member" None) None ∅)).2).1 =
  ["spam"; "eggs"].
Proof.
  apply save_load_roundtrip. intros r Hr. by apply elem_of_nil in Hr.
Defined.

(** Claim C8.  [load_stopwords] returns a list in every world.  When the
    chat has no file it returns the empty list, and the file holds the empty
    list afterwards when the write succeeds; when the read fails, at [open]
    or later, or the file holds no JSON object, it returns the empty list;
    and a list that is read is returned as it is. *)
Theorem load_stopwords_fail_open (chat : Z) (σ : World) :
  let file_path := get_stopwords_file chat in
  (load_stopwords chat σ).1 = loaded_stopwords σ chat ∧
  (files σ !! file_path = None →
   (load_stopwords chat σ).1 = [] ∧
   (io_succeeds 1 σ →
    files (load_stopwords chat σ).2 !! file_path = Some (Document (Some [])))) ∧
  (∀ r rest, io σ = r :: rest → r ≠ IoOk → (load_stopwords chat σ).1 = []) ∧
  (files σ !! file_path = Some Malformed → (load_stopwords chat σ).1 = []) ∧
  (∀ stopwords,
     files σ !! file_path = Some (Document (Some stopwords)) →
     io_succeeds 1 σ →
     (load_stopwords chat σ).1 = stopwords).
Proof.
  simpl. rewrite load_stopwords_result. split_and!; [done|..].
  - intros Hnone. split.
    + unfold loaded_stopwords. by rewrite Hnone.
    + intros Hio. rewrite load_stopwords_state, Hnone.
      by apply save_stopwords_stored.
  - intros r rest Hr Hfail. unfold loaded_stopwords. rewrite Hr.
    destruct (files σ !! _) as [[?|]|]; by destruct r.
  - intros Hfile. unfold loaded_stopwords. by rewrite Hfile.
  - intros stopwords Hfile Hio.
    rewrite (loaded_io_succeeds _ _ Hio). unfold stored_stopwords.
    by rewrite Hfile.
Qed.

Lemma load_stopwords_fail_open_witness :
  let σ := example_world "member" (Member "member" None) None ∅ in
  (load_stopwords group_chat σ).1 = [] ∧
  files (load_stopwords group_chat σ).2 !! get_stopwords_file group_chat =
  Some (Document (Some [])).
Proof.
  pose proof (load_stopwords_fail_open group_chat
                (example_world "member" (Member "member" None) None ∅))
    as (_ & Hmissing & _).
  destruct Hmissing as [Hempty Hsaved]; [by vm_compute|].
  split; [exact Hempty|]. apply Hsaved. intros r Hr. by apply elem_of_nil in Hr.
Defined.

(** ** The gates of [check_message] (claims C5 and C6) *)

Lemma stored_empty_loaded (σ : World) (chat : Z) :
  stored_stopwords σ chat = [] → loaded_stopwords σ chat = [].
Proof.
  intros Hstored. destruct (loaded_stopwords σ chat) as [|w ws] eqn:Hl; [done|].
  rewrite <- loaded_nonempty, Hstored in Hl; [done|by rewrite Hl].
Qed.

(** Claim C5, as stated, fails on a message that is delivered a second time:
    in a group where the service is a plain member, the second delivery of
    message 7 returns at the check of the cache, as already processed. *)
Lemma check_message_member_duplicate :
  let σ := example_world "member" (Member "member" None) (Some ["spam"])
             {[message_key group_chat 7]} in
  let update := text_update 7 "buy spam" in
  chat_type update = "supergroup" ∧
  chat_member σ (chat_id update) (bot_id σ) = Member "member" None ∧
  (check_message lower_ascii update σ).1 = Some (Skipped AlreadyProcessed) ∧
  (check_message lower_ascii update σ).1 ≠ Some (Skipped InsufficientBotCapability).
Proof. by vm_compute. Qed.

(** Claim C5, amended.  In a chat that is not private and in which the
    service's status is "member", no text message is ever requested for
    deletion, whatever its text; a message that is not in the cache of
    processed messages ends as skipped for insufficient capability, and one
    that is in the cache as already processed. *)
Theorem check_message_member_skipped (lower : string → string) (update : Update)
    (σ : World) (mid : Z) (t : string) (flag : option bool) :
  text_message update = Some (mid, t) →
  chat_type update ≠ "private" →
  chat_member σ (chat_id update) (bot_id σ) = Member "member" flag →
  deletes (trace (check_message lower update σ).2) = deletes (trace σ) ∧
  (check_message lower update σ).1 =
  Some (Skipped (if decide (message_key (chat_id update) mid ∈ processed_messages σ)
                 then AlreadyProcessed else InsufficientBotCapability)).
Proof.
  intros Htm Hty Hbot.
  assert (¬ capability_gate update σ) as Hgate.
  { intros [Hprivate|Hcan]; [done|]. by rewrite Hbot in Hcan. }
  pose proof (check_message_runs lower update σ) as Hrun.
  pose proof (check_message_run_deletes _ _ _ _ _ Hrun) as Hdel.
  destruct (check_message lower update σ) as [o σ']. simpl in *. revert Hdel.
  destruct Hrun as [Htm'|? ? Htm' ?|? ? Htm' ?|? ? Htm'|? ? Htm'|? ? ? Htm'];
    rewrite Htm in Htm'; simplify_eq/=; try done;
    rewrite (right_id_L [] (++)); intros Hdel; (split; [exact Hdel|]).
  - by rewrite decide_True.
  - by rewrite decide_False.
Qed.

Lemma check_message_member_skipped_witness :
  let σ := example_world "member" (Member "member" None) (Some ["spam"]) ∅ in
  let update := text_update 7 "buy spam" in
  deletes (trace (check_message lower_ascii update σ).2) = deletes (trace σ) ∧
  (check_message lower_ascii update σ).1 = Some (Skipped InsufficientBotCapability).
Proof.
  destruct (check_message_member_skipped lower_ascii
              (text_update 7 "buy spam")
              (example_world "member" (Member "member" None) (Some ["spam"]) ∅)
              7 "buy spam" None) as [Hdel Hout]; [by vm_compute..|].
  split; [exact Hdel|]. rewrite Hout. by vm_compute.
Defined.

(** Claim C6, as stated, fails in a group in which the service cannot
    moderate: the capability check comes first, and the message ends as
    skipped for insufficient capability although the stored list is empty. *)
Lemma check_message_empty_list_no_capability :
  let σ := example_world "member" (Member "member" None) (Some []) ∅ in
  let update := text_update 7 "hello" in
  stored_stopwords σ (chat_id update) = [] ∧
  (check_message lower_ascii update σ).1 = Some (Skipped InsufficientBotCapability) ∧
  (check_message lower_ascii update σ).1 ≠ Some (Skipped EmptyStopwordList).
Proof. by vm_compute. Qed.

(** Claim C6, amended.  In a chat whose stored list is empty no text message
    is requested for deletion, whatever its text; a message that is not in
    the cache of processed messages and passes the capability check (the
    chat is private, or the service is an operator with the right to delete)
    ends as skipped for an empty list. *)
Theorem check_message_empty_list (lower : string → string) (update : Update)
    (σ : World) (mid : Z) (t : string) :
  text_message update = Some (mid, t) →
  stored_stopwords σ (chat_id update) = [] →
  deletes (trace (check_message lower update σ).2) = deletes (trace σ) ∧
  (message_key (chat_id update) mid ∉ processed_messages σ →
   capability_gate update σ →
   (check_message lower update σ).1 = Some (Skipped EmptyStopwordList)).
Proof.
  intros Htm Hstored. apply stored_empty_loaded in Hstored.
  pose proof (check_message_runs lower update σ) as Hrun.
  pose proof (check_message_run_deletes _ _ _ _ _ Hrun) as Hdel.
  destruct (check_message lower update σ) as [o σ']. simpl in *. revert Hdel.
  destruct Hrun as [Htm'|? ? Htm' ?|? ? Htm' ?|? ? Htm'|? ? Htm'|? ? ? Htm'];
    rewrite Htm in Htm'; simplify_eq/=; try done;
    rewrite (right_id_L [] (++)); intros Hdel; by (split; [exact Hdel|]).
Qed.

Lemma check_message_empty_list_witness :
  let σ := example_world "member" (Member "administrator" (Some true)) (Some []) ∅ in
  let update := text_update 7 "hello" in
  deletes (trace (check_message lower_ascii update σ).2) = deletes (trace σ) ∧
  (check_message lower_ascii update σ).1 = Some (Skipped EmptyStopwordList).
Proof.
  destruct (check_message_empty_list lower_ascii
              (text_update 7 "hello")
              (example_world "member" (Member "administrator" (Some true)) (Some []) ∅)
              7 "hello") as [Hdel Hout]; [by vm_compute..|].
  split; [exact Hdel|]. apply Hout; [by vm_compute|]. right. by vm_compute.
Defined.

(** ** The command handlers (claims C3, C4, C9 and C10) *)

Lemma replies_app (l1 l2 : list event) :
  replies (l1 ++ l2) = replies l1 ++ replies l2.
Proof.
  induction l1 as [|e l1 IH]; [done|]. destruct e; simpl; by rewrite IH.
Qed.

Lemma load_stopwords_io (chat : Z) (σ : World) :
  io (load_stopwords chat σ).2 = tail (io σ).
Proof.
  rewrite load_stopwords_state.
  destruct (files σ !! get_stopwords_file chat); [done|].
  by rewrite save_stopwords_io.
Qed.


(** After a load that succeeds, the file holds the list that was loaded:
    the list it held, or the empty list that the load has saved. *)
Lemma load_stopwords_tail (n : nat) (chat : Z) (σ : World) :
  io_succeeds (S n) σ → io_succeeds n (load_stopwords chat σ).2.
Proof.
  unfold io_succeeds. rewrite load_stopwords_io. intros Hio r Hr.
  apply Hio. destruct (io σ) as [|r0 rest]; simpl in *; [|by right].
  rewrite take_nil in Hr. by apply elem_of_nil in Hr.
Qed.

Lemma elem_of_take_S {A} (n : nat) (l : list A) (x : A) :
  x ∈ take n l → x ∈ take (S n) l.
Proof.
  revert n. induction l as [|y l IH]; intros [|n] Hx; simpl in *;
    try (by apply elem_of_nil in Hx).
  apply elem_of_cons in Hx as [->|Hx]; [by left|]. right. by apply IH.
Qed.

Lemma io_succeeds_le (n : nat) (σ : World) :
  io_succeeds (S n) σ → io_succeeds n σ.
Proof. intros Hio r Hr. by apply Hio, elem_of_take_S. Qed.



(** The capability check of [add_word] and [start], run after the admin
    check. *)
Lemma add_word_capability_check (update : Update) (σ σ1 : World) :
  keeps_transport σ σ1 →
  (if decide (chat_type update ≠ "private")
   then check_bot_permissions (chat_id update)
   else mret (true, AllRights)) σ1 =
  ((bool_decide (chat_type update = "private") ||
    can_moderate (chat_member σ (chat_id update) (bot_id σ)),
    capability_message update σ),
   log (capability_events update σ) σ1).
Proof.
  intros (Hbot & Hmember & _). unfold capability_events, capability_message. simpl.
  case_decide as Hty.
  - rewrite check_bot_permissions_run. simpl. rewrite Hbot, Hmember.
    rewrite bool_decide_eq_false_2 by done. simpl.
    rewrite <- can_moderate_bot_permissions.
    by destruct (bot_permissions _) as [ok message].
  - rewrite bool_decide_eq_true_2 by done.
    by rewrite log_nil.
Qed.

Lemma capability_gate_true (update : Update) (σ : World) :
  capability_gate update σ →
  bool_decide (chat_type update = "private") ||
  can_moderate (chat_member σ (chat_id update) (bot_id σ)) = true.
Proof.
  intros [Hprivate| ->]; [|by rewrite orb_true_r].
  by rewrite bool_decide_eq_true_2.
Qed.

Lemma capability_gate_false (update : Update) (σ : World) :
  ¬ capability_gate update σ →
  bool_decide (chat_type update = "private") ||
  can_moderate (chat_member σ (chat_id update) (bot_id σ)) = false.
Proof.
  intros Hgate. apply orb_false_iff. split.
  - apply bool_decide_eq_false_2. intros Hprivate. apply Hgate. by left.
  - destruct (can_moderate _) eqn:Hcan; [|done]. exfalso. apply Hgate. by right.
Qed.

(** [add_word] past its two gates. *)
Lemma add_word_passes lower update σ :
  user_is_admin update σ = true →
  capability_gate update σ →
  add_word lower update σ =
  match args update with
  | [] => reply_text update ReplyUsageAdd
  | arg :: _ =>
      stopwords ← load_stopwords (chat_id update);
      if bool_decide (lower arg ∈ stopwords) then
        reply_text update (ReplyAlreadyPresent (lower arg))
      else
        save_stopwords (chat_id update) (stopwords ++ [lower arg]);;
        reply_text update (ReplyAdded (lower arg))
  end (log (admin_events update σ ++ capability_events update σ) σ).
Proof.
  intros Hadmin Hgate. unfold add_word. simpl.
  rewrite bind_run, is_admin_run, Hadmin. simpl. rewrite bind_run.
  rewrite (add_word_capability_check update σ (log (admin_events update σ) σ))
    by done.
  rewrite (capability_gate_true _ _ Hgate). simpl. by rewrite log_log.
Qed.

(** [remove_word] past its one gate. *)
Lemma remove_word_passes lower update σ :
  user_is_admin update σ = true →
  remove_word lower update σ =
  match args update with
  | [] => reply_text update ReplyUsageRemove
  | arg :: _ =>
      stopwords ← load_stopwords (chat_id update);
      if negb (bool_decide (lower arg ∈ stopwords)) then
        reply_text update (ReplyNotFound (lower arg))
      else
        save_stopwords (chat_id update) (list_remove_first (lower arg) stopwords);;
        reply_text update (ReplyRemoved (lower arg))
  end (log (admin_events update σ) σ).
Proof.
  intros Hadmin. unfold remove_word. simpl.
  by rewrite bind_run, is_admin_run, Hadmin.
Qed.

Lemma stored_stopwords_file (σ : World) (chat : Z) (stopwords : list string) :
  files σ !! get_stopwords_file chat = Some (Document (Some stopwords)) →
  stored_stopwords σ chat = stopwords.
Proof. intros Hfile. unfold stored_stopwords. by rewrite Hfile. Qed.

(** An admin's [add_word] of a word that is not on file appends the word. *)
Lemma add_word_adds lower update arg rest σ :
  args update = arg :: rest →
  user_is_admin update σ = true →
  capability_gate update σ →
  io_succeeds 2 σ →
  lower arg ∉ stored_stopwords σ (chat_id update) →
  stored_stopwords (add_word lower update σ).2 (chat_id update) =
  stored_stopwords σ (chat_id update) ++ [lower arg].
Proof.
  intros Hargs Hadmin Hgate Hio Hnew.
  rewrite add_word_passes, Hargs by done.
  set (σ1 := log _ σ).
  rewrite bind_run, load_stopwords_result.
  replace (loaded_stopwords σ1 (chat_id update))
    with (stored_stopwords σ (chat_id update))
    by (symmetry; by apply (loaded_io_succeeds σ), io_succeeds_le).
  rewrite bool_decide_eq_false_2 by done. rewrite bind_run, reply_text_run.
  apply stored_stopwords_file.
  apply (save_stopwords_stored (chat_id update) _ (load_stopwords (chat_id update) σ1).2).
  by apply load_stopwords_tail.
Qed.

(** An admin's [remove_word] of a word that is on file removes its first
    occurrence, whatever the service may do in the chat. *)
Lemma remove_word_removes lower update arg rest σ :
  args update = arg :: rest →
  user_is_admin update σ = true →
  io_succeeds 2 σ →
  lower arg ∈ stored_stopwords σ (chat_id update) →
  stored_stopwords (remove_word lower update σ).2 (chat_id update) =
  list_remove_first (lower arg) (stored_stopwords σ (chat_id update)).
Proof.
  intros Hargs Hadmin Hio Hin.
  rewrite remove_word_passes, Hargs by done.
  set (σ1 := log _ σ).
  rewrite bind_run, load_stopwords_result.
  replace (loaded_stopwords σ1 (chat_id update))
    with (stored_stopwords σ (chat_id update))
    by (symmetry; by apply (loaded_io_succeeds σ), io_succeeds_le).
  rewrite bool_decide_eq_true_2 by done. simpl. rewrite bind_run, reply_text_run.
  apply stored_stopwords_file.
  apply (save_stopwords_stored (chat_id update) _ (load_stopwords (chat_id update) σ1).2).
  by apply load_stopwords_tail.
Qed.

(** Claim C4, as stated, fails: in a group in which the service is a plain
    member, without the right to delete, an admin's [remove_word] of a
    stored word removes it. *)
Lemma remove_word_without_capability :
  let σ := example_world "administrator" (Member "member" None) (Some ["spam"]) ∅ in
  let update := command_update ["spam"] in
  chat_type update = "supergroup" ∧
  (check_bot_permissions (chat_id update) σ).1.1 = false ∧
  stored_stopwords σ (chat_id update) = ["spam"] ∧
  stored_stopwords (remove_word lower_ascii update σ).2 (chat_id update) = [] ∧
  trace (remove_word lower_ascii update σ).2 =
  [EvGetChatMember group_chat alice; EvIsAdmin group_chat alice true;
   EvLoad group_chat; EvSave group_chat []; EvReply group_chat (ReplyRemoved "spam")].
Proof. by vm_compute. Qed.

(** Claim C4, amended.  [remove_word] checks the admin status of the user
    and nothing else: in no chat does it check what the service may do, and
    an admin's removal of a stored word goes through whatever the service's
    membership is. *)
Theorem remove_word_no_capability_check (lower : string → string)
    (update : Update) (σ : World) :
  logs (without is_capability_check) σ (remove_word lower update σ).2 ∧
  (∀ arg rest,
     args update = arg :: rest →
     user_is_admin update σ = true →
     io_succeeds 2 σ →
     lower arg ∈ stored_stopwords σ (chat_id update) →
     stored_stopwords (remove_word lower update σ).2 (chat_id update) =
     list_remove_first (lower arg) (stored_stopwords σ (chat_id update))).
Proof.
  split.
  - revert σ. change (respects (logs (without is_capability_check))
                        (remove_word lower update)).
    unfold remove_word. frames.
  - intros arg rest. apply remove_word_removes.
Qed.

Lemma remove_word_no_capability_check_witness :
  stored_stopwords
    (remove_word lower_ascii (command_update ["SPAM"])
       (example_world "administrator" (Member "member" None)
          (Some ["spam"; "eggs"]) ∅)).2
    (chat_id (command_update ["SPAM"])) = ["eggs"].
Proof.
  rewrite (proj2 (remove_word_no_capability_check lower_ascii
                    (command_update ["SPAM"])
                    (example_world "administrator" (Member "member" None)
                       (Some ["spam"; "eggs"]) ∅)) "SPAM" []).
  - by vm_compute.
  - reflexivity.
  - by vm_compute.
  - intros r Hr. by apply elem_of_nil in Hr.
  - refine (bool_decide_unpack _ _). by vm_compute.
Defined.

(** Claim C9.  [add_word] and [remove_word] read their first argument only:
    with further arguments they do what they do with the first alone.  Past
    the gates, and with a store that works, [add_word] appends the
    lower-cased first argument to the stored list when it is not in it, and
    [remove_word] removes it when it is. *)
Theorem first_argument_only (lower : string → string) (update : Update)
    (arg : string) (rest : list string) (σ : World) :
  args update = arg :: rest →
  add_word lower update σ = add_word lower (with_args [arg] update) σ ∧
  remove_word lower update σ = remove_word lower (with_args [arg] update) σ ∧
  (user_is_admin update σ = true →
   capability_gate update σ →
   io_succeeds 2 σ →
   (lower arg ∉ stored_stopwords σ (chat_id update) →
    stored_stopwords (add_word lower update σ).2 (chat_id update) =
    stored_stopwords σ (chat_id update) ++ [lower arg]) ∧
   (lower arg ∈ stored_stopwords σ (chat_id update) →
    stored_stopwords (remove_word lower update σ).2 (chat_id update) =
    list_remove_first (lower arg) (stored_stopwords σ (chat_id update)))).
Proof.
  intros Hargs. split_and!.
  - destruct update as [chat ty user msg a]. simpl in Hargs. by subst a.
  - destruct update as [chat ty user msg a]. simpl in Hargs. by subst a.
  - intros Hadmin Hgate Hio. split; intros Hword.
    + by apply (add_word_adds lower update arg rest).
    + by apply (remove_word_removes lower update arg rest).
Qed.

(** [add_word] with the arguments ["foo"; "bar"] adds "foo" and nothing
    else. *)
Lemma first_argument_only_witness :
  let σ := example_world "administrator" (Member "administrator" (Some true))
             (Some ["spam"]) ∅ in
  let update := command_update ["foo"; "bar"] in
  add_word lower_ascii update σ = add_word lower_ascii (with_args ["foo"] update) σ ∧
  stored_stopwords (add_word lower_ascii update σ).2 (chat_id update) =
  ["spam"; "foo"].
Proof.
  destruct (first_argument_only lower_ascii (command_update ["foo"; "bar"])
              "foo" ["bar"]
              (example_world "administrator" (Member "administrator" (Some true))
                 (Some ["spam"]) ∅) eq_refl) as (Hadd & _ & Heffect).
  split; [exact Hadd|].
  destruct Heffect as [Hadds _].
  - by vm_compute.
  - right. by vm_compute.
  - intros r Hr. by apply elem_of_nil in Hr.
  - rewrite Hadds; [by vm_compute|]. refine (bool_decide_unpack _ _). by vm_compute.
Defined.




(** * Further properties of the code *)

(** ** File names and cache keys *)

Lemma list_ascii_of_string_append (s t : string) :
  list_ascii_of_string (s +:+ t) = list_ascii_of_string s ++ list_ascii_of_string t.
Proof.
  induction s as [|c s IH]; [done|].
  rewrite append_String. simpl. by rewrite IH.
Qed.

Lemma list_ascii_of_string_inj (s t : string) :
  list_ascii_of_string s = list_ascii_of_string t → s = t.
Proof.
  intros Heq.
  rewrite <- (string_of_list_ascii_of_string s), <- (string_of_list_ascii_of_string t).
  by rewrite Heq.
Qed.

Lemma append_inj_r (s1 s2 t : string) : s1 +:+ t = s2 +:+ t → s1 = s2.
Proof.
  intros Heq. apply list_ascii_of_string_inj.
  apply (f_equal list_ascii_of_string) in Heq.
  rewrite !list_ascii_of_string_append in Heq. by apply app_inv_tail in Heq.
Qed.

(** The characters [str] writes for an [int]: digits and the minus sign. *)
Lemma pretty_N_go_chars (x : N) (s : string) (c : ascii) :
  c ∈ list_ascii_of_string (pretty_N_go x s) →
  c ∈ list_ascii_of_string "0123456789" ∨ c ∈ list_ascii_of_string s.
Proof.
  revert s. induction (N.lt_wf_0 x) as [x _ IH]; intros s Hc.
  assert (x = 0 ∨ 0 < x)%N as [->|Hx] by lia.
  - right. by rewrite pretty_N_go_0 in Hc.
  - rewrite pretty_N_go_step in Hc by done.
    apply IH in Hc; [|by apply N.div_lt]. destruct Hc as [Hc|Hc]; [by left|].
    simpl in Hc. apply elem_of_cons in Hc as [->|Hc]; [|by right].
    left. unfold pretty_N_char.
    repeat case_match; by refine (bool_decide_unpack _ _).
Qed.

Lemma pretty_Z_chars (z : Z) (c : ascii) :
  c ∈ list_ascii_of_string (pretty z) →
  c ∈ list_ascii_of_string "-0123456789".
Proof.
  assert (∀ p, c ∈ list_ascii_of_string (pretty (Npos p)) →
               c ∈ list_ascii_of_string "0123456789") as Hpos.
  { intros p. unfold pretty, pretty_N. rewrite decide_False by done.
    intros [Hc|Hc]%pretty_N_go_chars; [done|]. by apply elem_of_nil in Hc. }
  destruct z as [|p|p]; unfold pretty, pretty_Z.
  - intros Hc. simpl in *. apply list_elem_of_singleton in Hc as ->. right. left.
  - intros Hc%Hpos. simpl in *. by right.
  - rewrite list_ascii_of_string_append. simpl.
    intros [->|Hc%Hpos]%elem_of_cons; simpl in *; [by left|by right].
Qed.

Lemma underscore_not_pretty (z : Z) :
  "_"%char ∉ list_ascii_of_string (pretty z).
Proof.
  intros Hc%pretty_Z_chars. simpl in Hc.
  repeat (apply elem_of_cons in Hc as [Hc|Hc]; [discriminate|]).
  by apply elem_of_nil in Hc.
Qed.

Lemma app_cons_unique {A} (c : A) (l1 l2 t1 t2 : list A) :
  c ∉ l1 → c ∉ l2 → l1 ++ c :: t1 = l2 ++ c :: t2 → l1 = l2 ∧ t1 = t2.
Proof.
  revert l2. induction l1 as [|a l1 IH]; intros [|b l2] H1 H2 Heq;
    simplify_eq/=; [done|..].
  - exfalso. apply H2. by left.
  - exfalso. apply H1. by left.
  - destruct (IH l2) as [-> ->]; [| |done..].
    + intros ?. apply H1. by right.
    + intros ?. apply H2. by right.
Qed.

(** Two chats never share a stop-word file. *)
Lemma get_stopwords_file_inj (chat1 chat2 : Z) :
  get_stopwords_file chat1 = get_stopwords_file chat2 → chat1 = chat2.
Proof.
  unfold get_stopwords_file. intros Heq.
  do 2 apply (inj (String.append _)) in Heq.
  apply append_inj_r in Heq. by apply (inj pretty).
Qed.

(** Two messages share a cache key only when they are the same message of
    the same chat. *)
Lemma message_key_inj (chat1 mid1 chat2 mid2 : Z) :
  message_key chat1 mid1 = message_key chat2 mid2 →
  chat1 = chat2 ∧ mid1 = mid2.
Proof.
  unfold message_key. intros Heq.
  apply (f_equal list_ascii_of_string) in Heq.
  rewrite !list_ascii_of_string_append in Heq. simpl in Heq.
  apply app_cons_unique in Heq as [H1 H2]; [|apply underscore_not_pretty..].
  apply list_ascii_of_string_inj in H1, H2.
  split; by apply (inj pretty).
Qed.

(** ** Frames of all the handlers *)

Global Instance keeps_transport_preorder : PreOrder keeps_transport.
Proof.
  split; unfold keeps_transport; [by intros ?|].
  intros ??? (?&?&?) (?&?&?). split_and!; congruence.
Qed.

Global Instance keeps_stored_preorder : PreOrder keeps_stored.
Proof.
  split; unfold keeps_stored; [by intros ?|].
  intros σ1 σ2 σ3 H12 H23 chat. by rewrite H23.
Qed.

Global Instance keeps_other_files_preorder chat : PreOrder (keeps_other_files chat).
Proof.
  split; unfold keeps_other_files; [by intros ?|].
  intros σ1 σ2 σ3 H12 H23 chat' Hne. by rewrite H23, H12.
Qed.

Global Instance stays_reliable_preorder : PreOrder stays_reliable.
Proof. split; unfold stays_reliable; [by intros ?|]. intros ??? ?? ?; auto. Qed.

Lemma keeps_transport_emit e : respects keeps_transport (emit e).
Proof. by intros σ. Qed.
Lemma keeps_transport_next_io : respects keeps_transport next_io.
Proof. intros σ. unfold next_io. by destruct (io σ). Qed.
Lemma keeps_transport_write_file p c : respects keeps_transport (write_file p c).
Proof. by intros σ. Qed.
Lemma keeps_transport_set_processed_messages f :
  respects keeps_transport (set_processed_messages f).
Proof. by intros σ. Qed.

Lemma keeps_stored_emit e : respects keeps_stored (emit e).
Proof. by intros σ. Qed.
Lemma keeps_stored_set_processed_messages f :
  respects keeps_stored (set_processed_messages f).
Proof. by intros σ. Qed.

Lemma keeps_other_files_emit chat e : respects (keeps_other_files chat) (emit e).
Proof. by intros σ. Qed.
Lemma keeps_other_files_set_processed_messages chat f :
  respects (keeps_other_files chat) (set_processed_messages f).
Proof. by intros σ. Qed.
Lemma keeps_other_files_next_io chat : respects (keeps_other_files chat) next_io.
Proof. intros σ. unfold next_io. by destruct (io σ). Qed.
Lemma keeps_other_files_write_file chat c :
  respects (keeps_other_files chat) (write_file (get_stopwords_file chat) c).
Proof.
  intros σ chat' Hne. simpl. apply lookup_insert_ne.
  intros Heq. by apply get_stopwords_file_inj in Heq.
Qed.

Lemma stays_reliable_emit e : respects stays_reliable (emit e).
Proof. by intros σ Hio. Qed.
Lemma stays_reliable_set_processed_messages f :
  respects stays_reliable (set_processed_messages f).
Proof. by intros σ Hio. Qed.
Lemma stays_reliable_next_io : respects stays_reliable next_io.
Proof. intros σ Hio. unfold next_io. by rewrite Hio. Qed.
Lemma stays_reliable_write_file p c : respects stays_reliable (write_file p c).
Proof. by intros σ Hio. Qed.

(** What [load_stopwords] does to the files: nothing to a file that exists,
    and a chat without a file is given an empty list, or a file that cannot
    be read. *)
Lemma keeps_stored_load_stopwords chat : respects keeps_stored (load_stopwords chat).
Proof.
  intros σ chat'. rewrite load_stopwords_state. unfold stored_stopwords.
  destruct (files σ !! get_stopwords_file chat) as [c|] eqn:Hfile; [done|].
  rewrite save_stopwords_run. simpl.
  destruct (decide (get_stopwords_file chat' = get_stopwords_file chat)) as [->|Hne].
  - rewrite Hfile. destruct (io σ) as [|[] rest]; simpl;
      by rewrite ?lookup_insert_eq, ?Hfile.
  - destruct (io σ) as [|[] rest]; simpl; by rewrite ?lookup_insert_ne.
Qed.

Global Hint Resolve keeps_transport_emit keeps_transport_next_io
  keeps_transport_write_file keeps_transport_set_processed_messages
  keeps_stored_emit keeps_stored_set_processed_messages keeps_stored_load_stopwords
  keeps_other_files_emit keeps_other_files_set_processed_messages
  keeps_other_files_next_io keeps_other_files_write_file
  stays_reliable_emit stays_reliable_set_processed_messages
  stays_reliable_next_io stays_reliable_write_file : frames.

(** As [frames], with the lemmas on whole calls tried before a call is
    unfolded. *)
Ltac handler_frame :=
  repeat first
    [ solve [auto with frames]
    | apply respects_ret; apply _
    | apply respects_get; apply _
    | apply respects_bind; [apply _| |intros ?]
    | apply logs_emit; reflexivity
    | progress case_decide
    | match goal with
      | |- respects _ (match ?x with _ => _ end) => destruct x
      end
    | progress unfold is_admin, check_bot_permissions, load_stopwords,
        save_stopwords, get_chat_member, reply_text, mark_processed,
        safe_delete_message ].

Ltac unfold_handlers :=
  unfold handle, check_message, start, help_command, add_word, remove_word,
    list_words, check_permissions.

(** No handler changes what the transport answers, and none makes a
    reliable store unreliable. *)
Lemma keeps_transport_handle lower c update :
  respects keeps_transport (handle lower c update).
Proof. destruct c; unfold_handlers; handler_frame. Qed.

Lemma stays_reliable_handle lower c update :
  respects stays_reliable (handle lower c update).
Proof. destruct c; unfold_handlers; handler_frame. Qed.

(** ** The runs of [add_word] and [remove_word] *)

Lemma loaded_stopwords_log (evs : list event) (σ : World) (chat : Z) :
  loaded_stopwords (log evs σ) chat = loaded_stopwords σ chat.
Proof. done. Qed.

Global Instance capability_gate_dec update σ : Decision (capability_gate update σ).
Proof. unfold capability_gate. apply _. Defined.

Lemma add_word_runs (lower : string → string) (update : Update) (σ : World) :
  add_word_run lower update σ (add_word lower update σ).2.
Proof.
  destruct (user_is_admin update σ) eqn:Hadmin.
  2: { unfold add_word. simpl. rewrite bind_run, is_admin_run, Hadmin. simpl.
       rewrite reply_text_run. simpl. rewrite log_log. by apply add_not_admin. }
  destruct (decide (capability_gate update σ)) as [Hgate|Hgate].
  - rewrite add_word_passes by done.
    destruct (args update) as [|arg rest] eqn:Hargs.
    + rewrite reply_text_run. simpl.
      rewrite log_log, <- (assoc_L (++)). by apply add_usage.
    + rewrite bind_run, load_stopwords_result, loaded_stopwords_log.
      destruct (bool_decide (lower arg ∈ loaded_stopwords σ (chat_id update)))
        eqn:Hin.
      * apply bool_decide_eq_true_1 in Hin. rewrite reply_text_run.
        by apply (add_present _ _ _ arg rest).
      * apply bool_decide_eq_false_1 in Hin. rewrite bind_run, reply_text_run.
        by apply (add_added _ _ _ arg rest).
  - unfold add_word. simpl. rewrite bind_run, is_admin_run, Hadmin. simpl.
    rewrite bind_run.
    rewrite (add_word_capability_check update σ (log (admin_events update σ) σ))
      by done.
    rewrite (capability_gate_false _ _ Hgate). simpl.
    rewrite reply_text_run. simpl. rewrite !log_log. by apply add_cannot.
Qed.

Lemma remove_word_runs (lower : string → string) (update : Update) (σ : World) :
  remove_word_run lower update σ (remove_word lower update σ).2.
Proof.
  destruct (user_is_admin update σ) eqn:Hadmin.
  2: { unfold remove_word. simpl. rewrite bind_run, is_admin_run, Hadmin. simpl.
       rewrite reply_text_run. simpl. rewrite log_log. by apply remove_not_admin. }
  rewrite remove_word_passes by done.
  destruct (args update) as [|arg rest] eqn:Hargs.
  - rewrite reply_text_run. simpl. rewrite log_log. by apply remove_usage.
  - rewrite bind_run, load_stopwords_result, loaded_stopwords_log.
    destruct (bool_decide (lower arg ∈ loaded_stopwords σ (chat_id update)))
      eqn:Hin; simpl.
    + apply bool_decide_eq_true_1 in Hin. rewrite bind_run, reply_text_run.
      by apply (remove_removed _ _ _ arg rest).
    + apply bool_decide_eq_false_1 in Hin. rewrite reply_text_run.
      by apply (remove_absent _ _ _ arg rest).
Qed.

(** ** One file for each chat *)

(** A handler called on an update of one chat leaves the files of all other
    chats as they are, whatever the command and however the file operations
    go. *)
Theorem handle_other_chats (lower : string → string) (c : command)
    (update : Update) (σ : World) (chat : Z) :
  chat ≠ chat_id update →
  files (handle lower c update σ).2 !! get_stopwords_file chat =
  files σ !! get_stopwords_file chat ∧
  stored_stopwords (handle lower c update σ).2 chat = stored_stopwords σ chat.
Proof.
  intros Hne.
  assert (respects (keeps_other_files (chat_id update)) (handle lower c update))
    as Hframe by (destruct c; unfold_handlers; handler_frame).
  specialize (Hframe σ chat Hne). split; [done|].
  unfold stored_stopwords. by rewrite Hframe.
Qed.

Lemma handle_other_chats_witness :
  stored_stopwords
    (handle lower_ascii CmdAddWord
       (mkUpdate 42 "private" alice None ["eggs"])
       (example_world "member" (Member "member" None) (Some ["spam"]) ∅)).2
    group_chat = ["spam"].
Proof.
  rewrite (proj2 (handle_other_chats lower_ascii CmdAddWord
                    (mkUpdate 42 "private" alice None ["eggs"])
                    (example_world "member" (Member "member" None) (Some ["spam"]) ∅)
                    group_chat ltac:(done))).
  by vm_compute.
Defined.

(** Only [add_word] and [remove_word] change a stored list: every other
    handler, [check_message] included, leaves the stored list of every chat
    as it is (a chat without a file may be given an empty one). *)
Theorem handle_keeps_stored (lower : string → string) (c : command)
    (update : Update) (σ : World) (chat : Z) :
  c ≠ CmdAddWord → c ≠ CmdRemoveWord →
  stored_stopwords (handle lower c update σ).2 chat = stored_stopwords σ chat.
Proof.
  intros Hadd Hremove.
  assert (respects keeps_stored (handle lower c update)) as Hframe
    by (destruct c; try done; unfold_handlers; handler_frame).
  apply Hframe.
Qed.

Lemma handle_keeps_stored_witness :
  stored_stopwords
    (handle lower_ascii TextMessage (text_update 7 "buy spam now")
       (example_world "member" (Member "administrator" (Some true))
          (Some ["spam"]) ∅)).2
    group_chat = ["spam"].
Proof.
  rewrite (handle_keeps_stored lower_ascii TextMessage) by done. by vm_compute.
Defined.

(** ** The lists on file stay free of duplicates and lower-cased *)

Global Instance keeps_wf_preorder lower : PreOrder (keeps_wf lower).
Proof. split; unfold keeps_wf; [by intros ?|]. intros ??? ?? ?; auto. Qed.

Lemma store_wf_files lower (σ σ' : World) :
  files σ' = files σ → store_wf lower σ → store_wf lower σ'.
Proof. unfold store_wf. by intros ->. Qed.

Lemma keeps_wf_emit lower e : respects (keeps_wf lower) (emit e).
Proof. by intros σ Hwf. Qed.
Lemma keeps_wf_set_processed_messages lower f :
  respects (keeps_wf lower) (set_processed_messages f).
Proof. by intros σ Hwf. Qed.

Lemma store_wf_save lower chat l σ :
  stopword_list lower l → store_wf lower σ →
  store_wf lower (save_stopwords chat l σ).2.
Proof.
  intros Hl Hwf file_path l'. rewrite save_stopwords_run. simpl.
  assert (∀ σ', files σ' = files σ →
    <[get_stopwords_file chat := Document (Some l)]> (files σ') !! file_path =
      Some (Document (Some l')) → stopword_list lower l') as Hwritten.
  { intros σ' ->. destruct (decide (get_stopwords_file chat = file_path)) as [<-|Hne].
    - rewrite lookup_insert_eq. by intros [= <-].
    - rewrite lookup_insert_ne by done. apply Hwf. }
  destruct (io σ) as [|[] rest]; simpl; [by apply Hwritten..|apply Hwf|].
  destruct (decide (get_stopwords_file chat = file_path)) as [<-|Hne].
  - by rewrite lookup_insert_eq.
  - rewrite lookup_insert_ne by done. apply Hwf.
Qed.

Lemma stopword_list_nil lower : stopword_list lower [].
Proof. split; constructor. Qed.

Lemma keeps_wf_load_stopwords lower chat :
  respects (keeps_wf lower) (load_stopwords chat).
Proof.
  intros σ Hwf. rewrite load_stopwords_state.
  destruct (files σ !! get_stopwords_file chat); [done|].
  by apply store_wf_save; [apply stopword_list_nil|].
Qed.

Lemma stopword_list_loaded lower σ chat :
  store_wf lower σ → stopword_list lower (loaded_stopwords σ chat).
Proof.
  intros Hwf. unfold loaded_stopwords.
  destruct (files σ !! get_stopwords_file chat) as [[[l|]|]|] eqn:Hfile;
    try apply stopword_list_nil;
    destruct (io σ) as [|[] rest]; try apply stopword_list_nil; by eapply Hwf.
Qed.

Lemma stopword_list_snoc lower l arg :
  stopword_list lower l → lower arg ∉ l → stopword_list lower (l ++ [lower arg]).
Proof.
  intros [Hnodup Hlower] Hnew. split.
  - apply NoDup_app. split_and!; [done| |apply NoDup_singleton].
    intros w Hw ->%list_elem_of_singleton. by apply Hnew.
  - apply Forall_app. split; [done|]. constructor; [by exists arg|constructor].
Qed.

Lemma list_remove_first_subseteq (word : string) (l : list string) (w : string) :
  w ∈ list_remove_first word l → w ∈ l.
Proof.
  induction l as [|x l IH]; simpl; [done|]. case_decide.
  - by right.
  - intros [->|Hw]%elem_of_cons; [by left|right; by apply IH].
Qed.

Lemma stopword_list_remove lower l word :
  stopword_list lower l → stopword_list lower (list_remove_first word l).
Proof.
  intros [Hnodup Hlower]. split.
  - clear Hlower. induction Hnodup as [|x l Hx Hnodup IH]; simpl; [constructor|].
    case_decide; [done|]. constructor; [|done].
    intros Hin. by apply Hx, (list_remove_first_subseteq word).
  - apply Forall_forall. intros w Hw.
    rewrite Forall_forall in Hlower. by apply Hlower, (list_remove_first_subseteq word).
Qed.

Global Hint Resolve keeps_wf_emit keeps_wf_set_processed_messages
  keeps_wf_load_stopwords : frames.

(** When every list on file is free of duplicates and made of lower-cased
    arguments, it is so after any handler has run, whatever the file
    operations do: [add_word] appends only a word that the list it read
    does not hold, and writes it lower-cased. *)
Theorem handle_keeps_store_wf (lower : string → string) (c : command)
    (update : Update) (σ : World) :
  store_wf lower σ → store_wf lower (handle lower c update σ).2.
Proof.
  assert (c ≠ CmdAddWord → c ≠ CmdRemoveWord →
          respects (keeps_wf lower) (handle lower c update)) as Hframe
    by (intros ??; destruct c; try done; unfold_handlers; handler_frame).
  intros Hwf.
  assert (∀ evs, store_wf lower
                   (load_stopwords (chat_id update) (log evs σ)).2) as Hload
    by (intros evs; by apply keeps_wf_load_stopwords).
  pose proof (stopword_list_loaded lower σ (chat_id update) Hwf) as Hloaded.
  destruct c; try (by apply Hframe).
  - simpl.
    destruct (add_word_runs lower update σ)
      as [?|?|?|arg rest _ _ _ Hin|arg rest _ _ _ Hnew]; [exact Hwf..|apply Hload|].
    apply (store_wf_files lower
             (save_stopwords (chat_id update)
                (loaded_stopwords σ (chat_id update) ++ [lower arg])
                (load_stopwords (chat_id update)
                   (log (admin_events update σ ++ capability_events update σ) σ)).2).2);
      [done|].
    apply store_wf_save; [by apply stopword_list_snoc|apply Hload].
  - simpl.
    destruct (remove_word_runs lower update σ)
      as [?|?|arg rest _ _ Hnew|arg rest _ _ Hin]; [exact Hwf..|apply Hload|].
    apply (store_wf_files lower
             (save_stopwords (chat_id update)
                (list_remove_first (lower arg) (loaded_stopwords σ (chat_id update)))
                (load_stopwords (chat_id update) (log (admin_events update σ) σ)).2).2);
      [done|].
    apply store_wf_save; [by apply stopword_list_remove|apply Hload].
Qed.

Lemma handle_keeps_store_wf_witness :
  store_wf lower_ascii
    (handle lower_ascii CmdAddWord (command_update ["Eggs"])
       (example_world "administrator" (Member "administrator" (Some true))
          None ∅)).2.
Proof.
  apply handle_keeps_store_wf. intros file_path l Hfile.
  simpl in Hfile. by rewrite lookup_empty in Hfile.
Defined.

(** ** What [add_word] and [remove_word] do to a list *)

Lemma reliable_io_succeeds (n : nat) (σ : World) : reliable σ → io_succeeds n σ.
Proof.
  unfold reliable, io_succeeds. intros -> r Hr.
  rewrite take_nil in Hr. by apply elem_of_nil in Hr.
Qed.

Lemma load_stopwords_files_existing (chat : Z) (c : file_content) (σ : World) :
  files σ !! get_stopwords_file chat = Some c →
  files (load_stopwords chat σ).2 = files σ.
Proof. intros Hfile. by rewrite load_stopwords_state, Hfile. Qed.

Lemma loaded_file_exists (σ : World) (chat : Z) (w : string) :
  w ∈ loaded_stopwords σ chat →
  ∃ l, files σ !! get_stopwords_file chat = Some (Document (Some l)).
Proof.
  unfold loaded_stopwords.
  destruct (files σ !! get_stopwords_file chat) as [[[l|]|]|];
    destruct (io σ) as [|[] ?]; simpl; intros Hw;
    try (by apply elem_of_nil in Hw); by exists l.
Qed.

Lemma loaded_subseteq_stored (σ : World) (chat : Z) (w : string) :
  w ∈ loaded_stopwords σ chat → w ∈ stored_stopwords σ chat.
Proof.
  intros Hw. rewrite loaded_nonempty; [done|].
  intros Hnil. rewrite Hnil in Hw. by apply elem_of_nil in Hw.
Qed.

Lemma user_is_admin_transport (update : Update) (σ σ' : World) :
  keeps_transport σ σ' → user_is_admin update σ' = user_is_admin update σ.
Proof. intros (_ & Hmember & _). unfold user_is_admin. by rewrite Hmember. Qed.

Lemma capability_gate_transport (update : Update) (σ σ' : World) :
  keeps_transport σ σ' → capability_gate update σ → capability_gate update σ'.
Proof.
  intros (Hbot & Hmember & _). unfold capability_gate. by rewrite Hbot, Hmember.
Qed.

Lemma replies_silent (σ σ' : World) :
  logs (without is_reply) σ σ' → replies (trace σ') = replies (trace σ).
Proof.
  intros (evs & -> & Hevs). rewrite replies_app.
  assert (replies evs = []) as ->; [|by rewrite (right_id_L [] (++))].
  induction Hevs as [|e evs He _ IH]; [done|]. by destruct e.
Qed.

Lemma silent_load_stopwords chat :
  respects (logs (without is_reply)) (load_stopwords chat).
Proof. handler_frame. Qed.


Lemma replies_gate_events (update : Update) (σ : World) :
  replies (admin_events update σ) = [] ∧ replies (capability_events update σ) = [].
Proof.
  unfold admin_events, capability_events. split; by case_decide.
Qed.

Lemma replies_log (evs : list event) (σ : World) :
  replies (trace (log evs σ)) = replies (trace σ) ++ replies evs.
Proof. apply replies_app. Qed.

(** The replies of the runs that reach the store. *)
Lemma replies_after_load (update : Update) (evs : list event) (σ : World) :
  replies evs = [] →
  replies (trace (load_stopwords (chat_id update) (log evs σ)).2) =
  replies (trace σ).
Proof.
  intros Hevs. rewrite (replies_silent _ _ (silent_load_stopwords _ _)).
  by rewrite replies_log, Hevs, (right_id_L [] (++)).
Qed.


Lemma replies_admin_capability (update : Update) (σ : World) :
  replies (admin_events update σ ++ capability_events update σ) = [].
Proof.
  destruct (replies_gate_events update σ) as [Ha Hc]. by rewrite replies_app, Ha, Hc.
Qed.

(** [add_word] of a word that the stored list holds. *)
Lemma add_word_present lower update arg rest σ :
  args update = arg :: rest →
  user_is_admin update σ = true →
  capability_gate update σ →
  io_succeeds 1 σ →
  lower arg ∈ stored_stopwords σ (chat_id update) →
  files (add_word lower update σ).2 = files σ ∧
  replies (trace (add_word lower update σ).2) =
  replies (trace σ) ++ replied update (ReplyAlreadyPresent (lower arg)).
Proof.
  intros Hargs Hadmin Hgate Hio Hin.
  rewrite <- (loaded_io_succeeds _ _ Hio) in Hin.
  destruct (add_word_runs lower update σ)
    as [?|?|?|arg' rest' _ _ Hargs' _|arg' rest' _ _ Hargs' Hnew];
    try congruence; rewrite Hargs in Hargs'; simplify_eq.
  destruct (loaded_file_exists _ _ _ Hin) as [l Hfile]. split.
  - simpl. by rewrite (load_stopwords_files_existing _ (Document (Some l))).
  - rewrite replies_log, replies_after_load; [by rewrite replies_reply_event|].
    apply replies_admin_capability.
Qed.



(** [remove_word] of a word that the stored list does not hold writes no
    file. *)
Lemma remove_word_not_found (lower : string → string) (update : Update)
    (arg : string) (rest : list string) (σ : World) (chat : Z) :
  args update = arg :: rest →
  user_is_admin update σ = true →
  lower arg ∉ stored_stopwords σ (chat_id update) →
  stored_stopwords (remove_word lower update σ).2 chat =
  stored_stopwords σ chat.
Proof.
  intros Hargs Hadmin Hnew.
  destruct (remove_word_runs lower update σ)
    as [?|? Hargs'|arg' rest' _ Hargs' _|arg' rest' _ Hargs' Hin];
    try congruence; rewrite Hargs in Hargs'; simplify_eq.
  - exact (keeps_stored_load_stopwords (chat_id update)
             (log (admin_events update σ) σ) chat).
  - by apply loaded_subseteq_stored in Hin.
Qed.



Lemma list_remove_first_snoc (word : string) (l : list string) :
  word ∉ l → list_remove_first word (l ++ [word]) = l.
Proof.
  induction l as [|x l IH]; intros Hnew; simpl.
  - by rewrite decide_True.
  - rewrite decide_False.
    + rewrite IH; [done|]. intros ?. apply Hnew. by right.
    + intros ->. apply Hnew. by left.
Qed.

(** Adding a word that the list does not hold and removing it again gives
    back the list as it was: the same words in the same order. *)
Theorem add_then_remove (lower : string → string) (update : Update)
    (arg : string) (rest : list string) (σ : World) :
  args update = arg :: rest →
  user_is_admin update σ = true →
  capability_gate update σ →
  reliable σ →
  lower arg ∉ stored_stopwords σ (chat_id update) →
  stored_stopwords (remove_word lower update (add_word lower update σ).2).2
    (chat_id update) =
  stored_stopwords σ (chat_id update).
Proof.
  intros Hargs Hadmin Hgate Hio Hnew.
  pose proof (keeps_transport_handle lower CmdAddWord update σ) as Htransport.
  pose proof (stays_reliable_handle lower CmdAddWord update σ Hio) as Hio1.
  simpl in Htransport, Hio1.
  pose proof (add_word_adds lower update arg rest σ Hargs Hadmin Hgate
                (reliable_io_succeeds 2 σ Hio) Hnew) as Hadded.
  rewrite (remove_word_removes lower update arg rest); [| done | | |].
  - by rewrite Hadded, list_remove_first_snoc.
  - by rewrite (user_is_admin_transport update σ).
  - by apply reliable_io_succeeds.
  - rewrite Hadded. apply elem_of_app. right. by left.
Qed.

Lemma add_then_remove_witness :
  stored_stopwords
    (remove_word lower_ascii (command_update ["Eggs"])
       (add_word lower_ascii (command_update ["Eggs"])
          (example_world "administrator" (Member "administrator" (Some true))
             (Some ["spam"; "ham"]) ∅)).2).2 group_chat =
  ["spam"; "ham"].
Proof.
  change group_chat with (chat_id (command_update ["Eggs"])).
  rewrite (add_then_remove lower_ascii (command_update ["Eggs"]) "Eggs" []);
    [by vm_compute|done|by vm_compute|right; by vm_compute|done|].
  refine (bool_decide_unpack _ _). by vm_compute.
Defined.

Lemma list_remove_first_NoDup (word : string) (l : list string) :
  NoDup l → word ∉ list_remove_first word l.
Proof.
  induction 1 as [|x l Hx _ IH]; simpl.
  - intros Hw. by apply elem_of_nil in Hw.
  - case_decide as Heq; [by subst|].
    intros [->|Hw]%elem_of_cons; [done|by apply IH].
Qed.

(** After an admin's [remove_word] with a store that works, the word is not
    in the stored list any more, provided the list held no word twice; in a
    list with duplicates one occurrence goes and the others stay. *)
Theorem remove_word_gone (lower : string → string) (update : Update)
    (arg : string) (rest : list string) (σ : World) :
  args update = arg :: rest →
  user_is_admin update σ = true →
  io_succeeds 2 σ →
  (NoDup (stored_stopwords σ (chat_id update)) →
   lower arg ∉ stored_stopwords (remove_word lower update σ).2 (chat_id update)) ∧
  (∀ before after,
     stored_stopwords σ (chat_id update) = before ++ lower arg :: after →
     lower arg ∉ before →
     stored_stopwords (remove_word lower update σ).2 (chat_id update) =
     before ++ after).
Proof.
  intros Hargs Hadmin Hio. split.
  - intros Hnodup.
    destruct (decide (lower arg ∈ stored_stopwords σ (chat_id update))) as [Hin|Hnew].
    + rewrite (remove_word_removes lower update arg rest) by done.
      by apply list_remove_first_NoDup.
    + by rewrite (remove_word_not_found lower update arg rest) by done.
  - intros before after Hstored Hfirst.
    rewrite (remove_word_removes lower update arg rest); [|done..|].
    + rewrite Hstored. clear Hstored.
      induction before as [|x before IH]; simpl.
      * by rewrite decide_True.
      * rewrite decide_False.
        -- rewrite IH; [done|]. intros ?. apply Hfirst. by right.
        -- intros ->. apply Hfirst. by left.
    + rewrite Hstored. apply elem_of_app. right. by left.
Qed.

Lemma remove_word_gone_witness :
  stored_stopwords
    (remove_word lower_ascii (command_update ["HAM"])
       (example_world "administrator" (Member "member" None)
          (Some ["spam"; "ham"; "eggs"; "ham"]) ∅)).2 group_chat =
  ["spam"] ++ ["eggs"; "ham"].
Proof.
  destruct (remove_word_gone lower_ascii (command_update ["HAM"]) "HAM" []
              (example_world "administrator" (Member "member" None)
                 (Some ["spam"; "ham"; "eggs"; "ham"]) ∅)) as [_ Hfirst];
    [done|by vm_compute| |].
  - intros r Hr. by apply elem_of_nil in Hr.
  - apply Hfirst; [by vm_compute|].
    refine (bool_decide_unpack _ _). by vm_compute.
Defined.

(** ** When a file operation fails *)

Lemma loaded_read_failure (σ : World) (chat : Z) r rest :
  io σ = r :: rest → r ≠ IoOk → loaded_stopwords σ chat = [].
Proof.
  intros Hio Hr. unfold loaded_stopwords. rewrite Hio.
  destruct (files σ !! get_stopwords_file chat) as [[?|]|]; by destruct r.
Qed.

(** A save that cannot open the file leaves every file as it was; a save
    that fails after it has opened the file leaves the chat without a list:
    the next load that can read returns the empty list, whatever list was
    stored before and whatever list was to be saved. *)
Theorem save_stopwords_failure (chat : Z) (W : list string) (σ : World)
    (rest : list io_result) :
  (io σ = IoOpenError :: rest → files (save_stopwords chat W σ).2 = files σ) ∧
  (io σ = IoBodyError :: rest →
   files (save_stopwords chat W σ).2 !! get_stopwords_file chat = Some Malformed ∧
   (load_stopwords chat (save_stopwords chat W σ).2).1 = []).
Proof.
  split; intros Hio.
  - rewrite save_stopwords_run, Hio. done.
  - assert (files (save_stopwords chat W σ).2 !! get_stopwords_file chat =
            Some Malformed) as Hfile.
    { rewrite save_stopwords_run, Hio. simpl. apply lookup_insert_eq. }
    split; [done|].
    rewrite load_stopwords_result. unfold loaded_stopwords. by rewrite Hfile.
Qed.

Lemma save_stopwords_failure_witness :
  (load_stopwords group_chat
     (save_stopwords group_chat ["spam"; "eggs"]
        (with_io [IoBodyError]
           (example_world "administrator" (Member "member" None)
              (Some ["spam"]) ∅))).2).1 = [].
Proof.
  by apply (proj2 (save_stopwords_failure group_chat ["spam"; "eggs"]
                     (with_io [IoBodyError]
                        (example_world "administrator" (Member "member" None)
                           (Some ["spam"]) ∅)) [])).
Defined.





(** When [check_message] cannot read the list of a chat it lets the message
    through: a message that is new and passes the capability check ends as
    skipped for an empty list, and no delete request is issued, whatever
    the list on file and the text of the message. *)
Theorem check_message_read_failure (lower : string → string) (update : Update)
    (σ : World) (mid : Z) (t : string) (r : io_result) (rest_io : list io_result) :
  text_message update = Some (mid, t) →
  message_key (chat_id update) mid ∉ processed_messages σ →
  capability_gate update σ →
  io σ = r :: rest_io → r ≠ IoOk →
  (check_message lower update σ).1 = Some (Skipped EmptyStopwordList) ∧
  deletes (trace (check_message lower update σ).2) = deletes (trace σ).
Proof.
  intros Htm Hnew Hgate Hio Hr.
  pose proof (loaded_read_failure σ (chat_id update) r rest_io Hio Hr) as Hloaded.
  pose proof (check_message_runs lower update σ) as Hrun.
  pose proof (check_message_run_deletes _ _ _ _ _ Hrun) as Hdel.
  destruct (check_message lower update σ) as [o σ']. simpl in *. revert Hdel.
  destruct Hrun as [Htm'|? ? Htm' ?|? ? Htm' ?|? ? Htm'|? ? Htm'|? ? ? Htm'];
    rewrite Htm in Htm'; simplify_eq/=; try done.
  rewrite (right_id_L [] (++)). by intros ->.
Qed.

Lemma check_message_read_failure_witness :
  (check_message lower_ascii (text_update 7 "buy spam")
     (with_io [IoOpenError]
        (example_world "member" (Member "administrator" (Some true))
           (Some ["spam"]) ∅))).1 = Some (Skipped EmptyStopwordList).
Proof.
  destruct (check_message_read_failure lower_ascii (text_update 7 "buy spam")
              (with_io [IoOpenError]
                 (example_world "member" (Member "administrator" (Some true))
                    (Some ["spam"]) ∅)) 7 "buy spam" IoOpenError []) as [Hout _];
    [by vm_compute|by vm_compute|right; by vm_compute|done|done|exact Hout].
Defined.

(** ** Replies and delete requests *)





(** [check_message] issues at most one delete request, and that for the
    message it was called on. *)
Theorem check_message_deletes (lower : string → string) (update : Update)
    (σ : World) :
  deletes (trace (check_message lower update σ).2) = deletes (trace σ) ∨
  ∃ mid t,
    text_message update = Some (mid, t) ∧
    deletes (trace (check_message lower update σ).2) =
    deletes (trace σ) ++ [EvDelete (chat_id update) mid].
Proof.
  rewrite (check_message_run_deletes _ _ _ _ _ (check_message_runs lower update σ)).
  destruct (matched_word _); [|left; by rewrite (right_id_L [] (++))].
  destruct (text_message update) as [[mid t]|];
    [|left; by rewrite (right_id_L [] (++))].
  right. by exists mid, t.
Qed.

(** ** Duplicate deliveries *)

Lemma check_message_marks lower update σ mid t :
  text_message update = Some (mid, t) →
  message_key (chat_id update) mid ∈
  processed_messages (check_message lower update σ).2.
Proof.
  intros Htm. rewrite check_message_cache, Htm.
  unfold insert_bounded_spec. case_decide; [done|].
  case_decide; [by apply elem_of_singleton|].
  apply elem_of_union. right. by apply elem_of_singleton.
Qed.

Lemma check_message_duplicate lower update σ mid t :
  text_message update = Some (mid, t) →
  message_key (chat_id update) mid ∈ processed_messages σ →
  check_message lower update σ = (Some (Skipped AlreadyProcessed), σ).
Proof.
  intros Htm Hdup.
  pose proof (check_message_runs lower update σ) as Hrun.
  destruct (check_message lower update σ) as [o σ']. simpl in *.
  destruct Hrun as [Htm'|? ? Htm' ?|? ? Htm' ?|? ? Htm'|? ? Htm'|? ? ? Htm'];
    (rewrite Htm in Htm'; by simplify_eq/=).
Qed.

(** A text message that is delivered again right after it was handled is
    skipped as already processed, and the second call changes nothing: no
    query, no file operation, no delete request, no change of the cache. *)
Theorem check_message_twice (lower : string → string) (update : Update)
    (σ : World) (mid : Z) (t : string) :
  text_message update = Some (mid, t) →
  check_message lower update (check_message lower update σ).2 =
  (Some (Skipped AlreadyProcessed), (check_message lower update σ).2).
Proof.
  intros Htm. apply (check_message_duplicate lower update _ mid t Htm).
  apply (check_message_marks lower update σ mid t Htm).
Qed.

Lemma check_message_twice_witness :
  (check_message lower_ascii (text_update 7 "buy spam")
     (check_message lower_ascii (text_update 7 "buy spam")
        (example_world "member" (Member "administrator" (Some true))
           (Some ["spam"]) ∅)).2).1 = Some (Skipped AlreadyProcessed).
Proof.
  by rewrite (check_message_twice lower_ascii (text_update 7 "buy spam") _ 7 "buy spam").
Defined.

(** Handling one message never makes another message a duplicate: after
    [check_message] on one message, a message with another chat or another
    message id is skipped as already processed only if its key was in the
    cache before. *)
Theorem check_message_marks_only_its_message (lower : string → string)
    (update update' : Update) (σ : World) (mid' : Z) (t' : string) :
  text_message update' = Some (mid', t') →
  (∀ mid t, text_message update = Some (mid, t) →
            chat_id update ≠ chat_id update' ∨ mid ≠ mid') →
  message_key (chat_id update') mid' ∉ processed_messages σ →
  (message_key (chat_id update') mid' ∉
     processed_messages (check_message lower update σ).2) ∧
  ((check_message lower update' (check_message lower update σ).2).1 ≠
   Some (Skipped AlreadyProcessed)).
Proof.
  intros Htm' Hother Hnew.
  assert (message_key (chat_id update') mid' ∉
          processed_messages (check_message lower update σ).2) as Hnew'.
  { rewrite check_message_cache.
    destruct (text_message update) as [[mid t]|] eqn:Htm; [|done].
    assert (message_key (chat_id update') mid' ≠ message_key (chat_id update) mid)
      as Hkey.
    { intros [Hchat Hmid]%message_key_inj.
      destruct (Hother mid t eq_refl) as [H|H]; by apply H. }
    unfold insert_bounded_spec. case_decide; [done|].
    case_decide; [by intros ?%elem_of_singleton|].
    intros [?|?%elem_of_singleton]%elem_of_union; done. }
  split; [done|].
  pose proof (check_message_runs lower update' (check_message lower update σ).2) as Hrun.
  destruct (check_message lower update' _) as [o σ']. simpl in *.
  destruct Hrun as [Htm2|? ? Htm2 ?|? ? Htm2 ?|? ? Htm2|? ? Htm2|? ? ? Htm2];
    (rewrite Htm' in Htm2; simplify_eq/=; try done).
  by destruct (delete_message _ _ _).
Qed.

Lemma check_message_marks_only_its_message_witness :
  (check_message lower_ascii (text_update 8 "buy spam")
     (check_message lower_ascii (text_update 7 "hello")
        (example_world "member" (Member "administrator" (Some true))
           (Some ["spam"]) ∅)).2).1 ≠ Some (Skipped AlreadyProcessed).
Proof.
  apply (check_message_marks_only_its_message lower_ascii
           (text_update 7 "hello") (text_update 8 "buy spam") _ 8 "buy spam").
  - by vm_compute.
  - intros mid t [= <- _]. by right.
  - intros Hin. by apply elem_of_empty in Hin.
Defined.

(** ** The permission checks *)

Lemma in_two (x a b : string) : x ∈ [a; b] ↔ x = a ∨ x = b.
Proof.
  rewrite elem_of_cons, list_elem_of_singleton. done.
Qed.

(** [is_admin] in a private chat answers yes without asking the transport;
    elsewhere it asks once and answers yes exactly when the transport
    reports the user as creator or administrator, so that a failing query
    counts as no. *)
Theorem is_admin_verdict (update : Update) (σ : World) :
  (chat_type update = "private" →
   is_admin update σ =
   (true, log [EvIsAdmin (chat_id update) (user_id update) true] σ)) ∧
  (chat_type update ≠ "private" →
   ((is_admin update σ).1 = true ↔
    ∃ status flag,
      chat_member σ (chat_id update) (user_id update) = Member status flag ∧
      (status = "creator" ∨ status = "administrator")) ∧
   (is_admin update σ).2 =
   log [EvGetChatMember (chat_id update) (user_id update);
        EvIsAdmin (chat_id update) (user_id update) (is_admin update σ).1] σ).
Proof.
  rewrite is_admin_run. unfold admin_events, user_is_admin. split; intros Hty.
  - by rewrite !decide_True.
  - rewrite !decide_False by done. simpl. split; [|done].
    destruct (chat_member σ (chat_id update) (user_id update)) as [status flag|e].
    + rewrite bool_decide_eq_true, in_two. split.
      * intros Hstatus. by exists status, flag.
      * by intros (? & ? & [= <- <-] & Hstatus).
    + split; [done|]. by intros (? & ? & ? & _).
Qed.

Lemma is_admin_verdict_witness :
  (is_admin (mkUpdate 42 "private" alice None [])
     (example_world "member" (MemberError "timeout") None ∅)).1 = true.
Proof.
  by rewrite (proj1 (is_admin_verdict (mkUpdate 42 "private" alice None []) _) eq_refl).
Defined.

Lemma bot_permissions_true (r : member_result) :
  can_moderate r = true → bot_permissions r = (true, AllRights).
Proof.
  destruct r as [status can_delete|e]; simpl; [|done].
  destruct (bool_decide _); simpl; [|done]. by destruct (default false can_delete).
Qed.

(** [check_bot_permissions] says yes exactly when the transport reports the
    service as administrator or creator with [can_delete_messages] set; its
    message tells a service that is no operator from an operator without the
    right to delete and from a query that failed; it asks the transport once
    and touches neither the files nor the cache. *)
Theorem check_bot_permissions_result (chat : Z) (σ : World) :
  let r := chat_member σ chat (bot_id σ) in
  let p := (check_bot_permissions chat σ).1 in
  (p.1 = true ↔
   ∃ status, r = Member status (Some true) ∧
             (status = "administrator" ∨ status = "creator")) ∧
  (p.1 = true → p.2 = AllRights) ∧
  (∀ status flag, r = Member status flag →
     (¬ (status = "administrator" ∨ status = "creator") → p = (false, NotAdministrator)) ∧
     (status = "administrator" ∨ status = "creator" → flag ≠ Some true →
      p = (false, NoDeleteRight))) ∧
  (∀ e, r = MemberError e → p = (false, CheckError e)) ∧
  (check_bot_permissions chat σ).2 =
  log [EvGetChatMember chat (bot_id σ); EvBotPermissions chat p.1] σ.
Proof.
  simpl. rewrite check_bot_permissions_run. simpl.
  rewrite can_moderate_bot_permissions.
  set (r := chat_member σ chat (bot_id σ)). split_and!; [| | | |done].
  - unfold can_moderate. destruct r as [status flag|e].
    + rewrite andb_true_iff, bool_decide_eq_true, in_two. split.
      * intros [Hstatus Hflag]. exists status. split; [|done].
        by destruct flag as [[]|].
      * intros (s & [= -> ->] & Hstatus). by split.
    + split; [done|]. by intros (? & ? & _).
  - intros Hcan. by rewrite (bot_permissions_true r Hcan).
  - intros status flag ->. simpl. split.
    + intros Hstatus. rewrite bool_decide_eq_false_2; [done|]. by rewrite in_two.
    + intros Hstatus Hflag. rewrite bool_decide_eq_true_2 by by rewrite in_two.
      simpl. by destruct flag as [[]|].
  - by intros e ->.
Qed.

Lemma check_bot_permissions_result_witness :
  (check_bot_permissions group_chat
     (example_world "member" (Member "administrator" None) None ∅)).1 =
  (false, NoDeleteRight).
Proof.
  destruct (check_bot_permissions_result group_chat
              (example_world "member" (Member "administrator" None) None ∅))
    as (_ & _ & Hmember & _).
  destruct (Hmember "administrator" None) as [_ Hright]; [by vm_compute|].
  apply Hright; [by left|done].
Defined.

(** ** One verdict on the service's rights *)





(** ** A word that was added is enforced *)

Lemma add_word_stored lower update arg rest σ :
  args update = arg :: rest →
  user_is_admin update σ = true →
  capability_gate update σ →
  reliable σ →
  lower arg ∈ stored_stopwords (add_word lower update σ).2 (chat_id update).
Proof.
  intros Hargs Hadmin Hgate Hio.
  destruct (decide (lower arg ∈ stored_stopwords σ (chat_id update))) as [Hin|Hnew].
  - destruct (add_word_present lower update arg rest σ) as [Hfiles _];
      [done..|by apply reliable_io_succeeds|done|].
    unfold stored_stopwords. by rewrite Hfiles.
  - rewrite (add_word_adds lower update arg rest);
      [|done..|by apply reliable_io_succeeds|done].
    apply elem_of_app. right. by left.
Qed.

Lemma check_message_scan lower update σ mid t :
  text_message update = Some (mid, t) →
  message_key (chat_id update) mid ∉ processed_messages σ →
  capability_gate update σ →
  io_succeeds 1 σ →
  matched_word (check_message lower update σ).1 =
  scan (stored_stopwords σ (chat_id update)) (lower t).
Proof.
  intros Htm Hnew Hgate Hio.
  pose proof (check_message_runs lower update σ) as Hrun.
  rewrite <- (loaded_io_succeeds _ _ Hio).
  destruct (check_message lower update σ) as [o σ']. simpl in *.
  destruct Hrun as [Htm'|? ? Htm'|? ? Htm'|? ? Htm' ? ? Hl|? ? Htm' ? ? ? Hscan
                   |mid' t' word' Htm' ? ? ? Hscan];
    (rewrite Htm in Htm'; simplify_eq/=; try done).
  - by rewrite Hl.
  - rewrite Hscan. by destruct (delete_message σ _ _).
Qed.

(** Once an admin has added a word in a chat in which the service can
    moderate, a new message of that chat whose lower-cased text contains the
    lower-cased word is matched, and a delete request is issued for it
    (store reliable throughout). *)
Theorem add_word_enforced (lower : string → string) (cmd msg : Update)
    (arg : string) (rest : list string) (mid : Z) (t : string) (σ : World) :
  args cmd = arg :: rest →
  user_is_admin cmd σ = true →
  capability_gate cmd σ →
  reliable σ →
  chat_id msg = chat_id cmd →
  chat_type msg = chat_type cmd →
  text_message msg = Some (mid, t) →
  message_key (chat_id msg) mid ∉ processed_messages σ →
  substring_of (lower arg) (lower t) →
  ∃ word,
    matched_word (check_message lower msg (add_word lower cmd σ).2).1 = Some word ∧
    deletes (trace (check_message lower msg (add_word lower cmd σ).2).2) =
    deletes (trace (add_word lower cmd σ).2) ++ [EvDelete (chat_id msg) mid].
Proof.
  intros Hargs Hadmin Hgate Hio Hchat Hty Htm Hnew Hsub.
  pose proof (keeps_transport_handle lower CmdAddWord cmd σ) as Htransport.
  pose proof (stays_reliable_handle lower CmdAddWord cmd σ Hio) as Hio1.
  pose proof (keeps_cache_handle lower CmdAddWord cmd ltac:(done) σ) as Hcache.
  pose proof (add_word_stored lower cmd arg rest σ Hargs Hadmin Hgate Hio) as Hin.
  simpl in Htransport, Hio1, Hcache.
  set (σ1 := (add_word lower cmd σ).2) in *.
  assert (capability_gate msg σ1) as Hgate1.
  { apply (capability_gate_transport msg σ); [done|].
    unfold capability_gate in *. by rewrite Hty, Hchat. }
  pose proof (check_message_scan lower msg σ1 mid t Htm) as Hscan.
  rewrite Hcache in Hscan.
  specialize (Hscan Hnew Hgate1 (reliable_io_succeeds 1 σ1 Hio1)).
  destruct (scan (stored_stopwords σ1 (chat_id msg)) (lower t)) as [word|] eqn:Hfound.
  - exists word. split; [done|].
    rewrite (check_message_run_deletes _ _ _ _ _ (check_message_runs lower msg σ1)).
    by rewrite Hscan, Htm.
  - exfalso. rewrite scan_None in Hfound.
    apply (Hfound (lower arg)); [|done]. by rewrite Hchat.
Qed.

Lemma add_word_enforced_witness :
  ∃ word,
    matched_word
      (check_message lower_ascii (text_update 7 "Buy EGGS now")
         (add_word lower_ascii (command_update ["Eggs"])
            (example_world "administrator" (Member "administrator" (Some true))
               (Some ["spam"]) ∅)).2).1 = Some word.
Proof.
  destruct (add_word_enforced lower_ascii (command_update ["Eggs"])
              (text_update 7 "Buy EGGS now") "Eggs" [] 7 "Buy EGGS now"
              (example_world "administrator" (Member "administrator" (Some true))
                 (Some ["spam"]) ∅)) as (word & Hword & _);
    [done|by vm_compute|right; by vm_compute|done|done|done|by vm_compute| |
     |by exists word].
  - intros Hin. by apply elem_of_empty in Hin.
  - apply contains_spec. by vm_compute.
Defined.

(** ** The delete request and the full cache *)

(** When a word is matched, the outcome tells what the transport answered to
    the one delete request: deleted on a success, failed on either kind of
    exception; the message is marked as processed in both cases, so a
    failed deletion is not tried again on a second delivery. *)
Theorem check_message_delete_outcome (lower : string → string) (update : Update)
    (σ : World) (mid : Z) (t word : string) :
  text_message update = Some (mid, t) →
  matched_word (check_message lower update σ).1 = Some word →
  (check_message lower update σ).1 =
  Some (match delete_message σ (chat_id update) mid with
        | Deleted => DeletedOnMatch word
        | _ => DeleteFailed word
        end) ∧
  message_key (chat_id update) mid ∈
  processed_messages (check_message lower update σ).2.
Proof.
  intros Htm Hword. split; [|by apply (check_message_marks lower update σ mid t)].
  pose proof (check_message_runs lower update σ) as Hrun.
  destruct (check_message lower update σ) as [o σ']. simpl in *.
  destruct Hrun as [Htm'|? ? Htm' ?|? ? Htm' ?|? ? Htm'|? ? Htm'|? ? word' Htm'];
    (rewrite Htm in Htm'; simplify_eq/=; try done).
  by destruct (delete_message σ (chat_id update) _); simplify_eq/=.
Qed.

Lemma check_message_delete_outcome_witness :
  (check_message lower_ascii (text_update 7 "buy spam")
     (mkWorld ∅ {[get_stopwords_file group_chat := Document (Some ["spam"])]} []
        the_bot (λ _ _, Member "administrator" (Some true))
        (λ _ _, DeleteTelegramError "Message can't be deleted") [])).1 =
  Some (DeleteFailed "spam").
Proof.
  by destruct (check_message_delete_outcome lower_ascii (text_update 7 "buy spam")
                 (mkWorld ∅ {[get_stopwords_file group_chat := Document (Some ["spam"])]}
                    [] the_bot (λ _ _, Member "administrator" (Some true))
                    (λ _ _, DeleteTelegramError "Message can't be deleted") [])
                 7 "buy spam" "spam") as [-> _]; [by vm_compute..|].
Defined.

(** A new message that arrives when the cache is full empties it: every
    message handled before is forgotten, and a later delivery of one of them
    is handled as a new message. *)
Theorem check_message_overflow (lower : string → string) (update update' : Update)
    (σ : World) (mid mid' : Z) (t t' : string) :
  text_message update = Some (mid, t) →
  message_key (chat_id update) mid ∉ processed_messages σ →
  (MAX_CACHE_SIZE ≤ size (processed_messages σ))%nat →
  text_message update' = Some (mid', t') →
  chat_id update' ≠ chat_id update ∨ mid' ≠ mid →
  processed_messages (check_message lower update σ).2 =
  {[message_key (chat_id update) mid]} ∧
  (check_message lower update' (check_message lower update σ).2).1 ≠
  Some (Skipped AlreadyProcessed).
Proof.
  intros Htm Hnew Hfull Htm' Hother.
  assert (processed_messages (check_message lower update σ).2 =
          {[message_key (chat_id update) mid]}) as Hcache.
  { rewrite check_message_cache, Htm. unfold insert_bounded_spec.
    rewrite decide_False by done. rewrite decide_True; [done|lia]. }
  split; [done|].
  assert (message_key (chat_id update') mid' ∉
          processed_messages (check_message lower update σ).2) as Hnew'.
  { rewrite Hcache. intros [Hchat Hmid]%elem_of_singleton%message_key_inj.
    by destruct Hother. }
  pose proof (check_message_runs lower update' (check_message lower update σ).2) as Hrun.
  destruct (check_message lower update' _) as [o σ']. simpl in *.
  destruct Hrun as [Htm2|? ? Htm2 ?|? ? Htm2 ?|? ? Htm2|? ? Htm2|? ? ? Htm2];
    (rewrite Htm' in Htm2; simplify_eq/=; try done).
  by destruct (delete_message _ _ _).
Qed.

Lemma size_full_cache : size full_cache = MAX_CACHE_SIZE.
Proof.
  unfold full_cache. rewrite size_list_to_set.
  - by rewrite length_fmap, length_seq.
  - apply NoDup_fmap_2; [|apply NoDup_seq].
    intros i j [_ Hij]%message_key_inj. lia.
Qed.

Lemma not_elem_of_full_cache (chat mid : Z) :
  (Z.of_nat MAX_CACHE_SIZE < mid)%Z → message_key chat mid ∉ full_cache.
Proof.
  intros Hmid. unfold full_cache. rewrite elem_of_list_to_set, list_elem_of_fmap.
  intros (i & [_ Hi]%message_key_inj & Hseq). apply elem_of_seq in Hseq. lia.
Qed.

Lemma check_message_overflow_witness :
  (check_message lower_ascii (text_update 5 "hello")
     (check_message lower_ascii (text_update 2000 "hello")
        (example_world "member" (Member "member" None) None full_cache)).2).1 ≠
  Some (Skipped AlreadyProcessed).
Proof.
  apply (proj2 (check_message_overflow lower_ascii
                  (text_update 2000 "hello") (text_update 5 "hello")
                  (example_world "member" (Member "member" None) None full_cache)
                  2000 5 "hello" "hello"
                  eq_refl
                  (not_elem_of_full_cache group_chat 2000 ltac:(by vm_compute))
                  (eq_ind_r (λ n, (MAX_CACHE_SIZE ≤ n)%nat) (le_n _) size_full_cache)
                  eq_refl ltac:(by right))).
Defined.
